(** * The sidecar-injector admission webhook (cmd/webhook.go)

    A shallow embedding of the patch-generation engine:
    [mutationRequired], the four patch builders, the naming code of
    [createPatch] and the loop of [createPatch] itself, followed by the
    properties of the specification that were checked against it.

    Conventions.
    - A Go [string] is a byte string: Rocq's [string], one [ascii] per byte.
    - A Go [map[string]string] is an [option (gmap string string)]; [None] is
      the nil map.  Reading a nil map behaves like reading an empty one,
      writing to it panics.
    - A Go slice that is only ever read, or built by [append], is a [list].
    - [*Config] is an address in a store of [Config] objects; the store is
      threaded through [createPatch] together with the loop variables.  The
      slices and maps inside a [Config] belong to that object alone, and an
      assignment such as [cfg.Containers[0].Name = x] is an update of the
      object at the address [cfg].
    - A run-time panic (index out of range, nil dereference, write to a nil
      map) is an outcome of its own, it is never silently skipped. *)

From Stdlib Require Import Ascii String NArith DecimalString.
From stdpp Require Import base option list strings gmap.

Local Open Scope stdpp_scope.

(** ** Go's [strings] and [strconv] functions used by the webhook *)

Module GoStrings.

Definition byteIn (c : ascii) (set : string) : bool :=
  existsb (Ascii.eqb c) (list_ascii_of_string set).

(** [strings.HasPrefix]. *)
Fixpoint HasPrefix (s prefix : string) : bool :=
  match prefix, s with
  | EmptyString, _ => true
  | String p prefix', String c s' => Ascii.eqb c p && HasPrefix s' prefix'
  | String _ _, EmptyString => false
  end.

(** [strings.Contains]. *)
Fixpoint Contains (s substr : string) : bool :=
  HasPrefix s substr ||
  match s with
  | EmptyString => false
  | String _ s' => Contains s' substr
  end.

(** [strings.ContainsAny] for a set of ASCII characters. *)
Definition ContainsAny (s chars : string) : bool :=
  existsb (fun c => byteIn c chars) (list_ascii_of_string s).

(** [strings.Split] for a non-empty separator.  [skip] counts the bytes of
    a separator that was just recognised and still has to be passed over;
    [cur] is the piece being read, in reverse. *)
Fixpoint splitFrom (sep : string) (skip : nat) (cur : string) (s : string)
  : list string :=
  match s with
  | EmptyString => [String.rev cur]
  | String c s' =>
      match skip with
      | S k => splitFrom sep k cur s'
      | O =>
          if HasPrefix s sep
          then String.rev cur :: splitFrom sep (String.length sep - 1) "" s'
          else splitFrom sep 0 (String c cur) s'
      end
  end.

Definition Split (s sep : string) : list string := splitFrom sep 0 "" s.

(** [strings.ReplaceAll] for a non-empty [old]: occurrences are replaced
    from the left and do not overlap. *)
Fixpoint replaceFrom (old new : string) (skip : nat) (s : string) : string :=
  match s with
  | EmptyString => ""
  | String c s' =>
      match skip with
      | S k => replaceFrom old new k s'
      | O =>
          if HasPrefix s old
          then new +:+ replaceFrom old new (String.length old - 1) s'
          else String c (replaceFrom old new 0 s')
      end
  end.

Definition ReplaceAll (s old new : string) : string := replaceFrom old new 0 s.

(** [strings.TrimRight] for a cutset of ASCII characters. *)
Fixpoint TrimRight (s cutset : string) : string :=
  match s with
  | EmptyString => ""
  | String c s' =>
      match TrimRight s' cutset with
      | EmptyString => if byteIn c cutset then "" else String c ""
      | t => String c t
      end
  end.

(** [strings.ToLower].  A string of ASCII bytes has its letters A-Z moved
    to a-z; any other string is handed to [strings.Map(unicode.ToLower, _)],
    which the webhook's source does not contain and which is therefore a
    parameter here. *)
Definition isASCIIbyte (c : ascii) : bool := (N_of_ascii c <? 128)%N.

Definition isASCII (s : string) : bool :=
  forallb isASCIIbyte (list_ascii_of_string s).

Definition lowerByte (c : ascii) : ascii :=
  let n := N_of_ascii c in
  if ((65 <=? n) && (n <=? 90))%N then ascii_of_N (n + 32) else c.

Fixpoint lowerBytes (s : string) : string :=
  match s with
  | EmptyString => ""
  | String c s' => String (lowerByte c) (lowerBytes s')
  end.

Definition ToLower (mapUnicodeToLower : string → string) (s : string) : string :=
  if isASCII s then lowerBytes s else mapUnicodeToLower s.

(** [strconv.Itoa] on the non-negative integers the webhook prints. *)
Definition Itoa (n : nat) : string := NilZero.string_of_uint (Nat.to_uint n).

End GoStrings.

Import GoStrings.

(** ** Kubernetes objects

    Only the fields the webhook reads or writes are kept; every other field
    of the API types is carried along unchanged by the code and plays no
    part below. *)

Abbreviation StringMap := (option (gmap string string)).

(** [m[k]]: the zero value when the key, or the map, is absent. *)
Definition index (m : StringMap) (k : string) : string :=
  default "" (m ≫= (.!! k)).

(** [_, ok := m[k]]. *)
Definition indexOk (m : StringMap) (k : string) : bool :=
  bool_decide (is_Some (m ≫= (.!! k))).

Record ObjectMeta := {
  Name : string;
  Namespace : string;
  Labels : StringMap;
  Annotations : StringMap
}.

Record EnvVar := {
  EnvVar_Name : string;
  EnvVar_Value : string
}.

Record VolumeMount := {
  VolumeMount_Name : string;
  VolumeMount_MountPath : string
}.

Record Container := {
  Container_Name : string;
  Container_Args : list string;
  Container_Env : list EnvVar;
  Container_VolumeMounts : list VolumeMount
}.

(** [*corev1.CSIVolumeSource]. *)
Record CSIVolumeSource := {
  CSI_Driver : string;
  CSI_VolumeAttributes : StringMap
}.

Record Volume := {
  Volume_Name : string;
  Volume_CSI : option CSIVolumeSource
}.

Record PodSpec := {
  Spec_Containers : list Container;
  Spec_Volumes : list Volume
}.

Record Pod := {
  Pod_ObjectMeta : ObjectMeta;
  Pod_Spec : PodSpec
}.

(** [corev1.Secret]; the [[]byte] values of [Data] are kept as strings, which
    is what [string(secret.Data[k])] makes of them. *)
Record Secret := {
  Secret_Name : string;
  Secret_Data : StringMap
}.

Record Config := {
  Containers : list Container;
  Volumes : list Volume
}.

(** [type M map[string]interface{}], with the two kinds of value the webhook
    stores in it. *)
Inductive MValue :=
| MString (s : string)
| MBool (b : bool).

Abbreviation M := (list (string * MValue)).

(** The [interface{}] value of a patch operation: one constructor for each
    dynamic type the webhook puts there. *)
Inductive PatchValue :=
| VContainer (c : Container)
| VContainers (cs : list Container)
| VVolume (v : Volume)
| VVolumes (vs : list Volume)
| VStringMap (m : gmap string string)
| VString (s : string)
| VM (m : M)
| VMs (ms : list M).

Record patchOperation := {
  Op : string;
  Path : string;
  Value : PatchValue
}.

(** [admissionv1.AdmissionResponse]. *)
Record AdmissionResponse := {
  Allowed : bool;
  Patch : option string;
  PatchType : option string
}.

Definition admissionWebhookAnnotationInjectKey : string :=
  "filer-injector-webhook.das-zone.statcan/inject".
Definition admissionWebhookAnnotationStatusKey : string :=
  "filer-injector-webhook.das-zone.statcan/status".

(** ** Mutation policy *)

Section MutationPolicy.

Variable mapUnicodeToLower : string → string.

(** The values of the inject annotation that switch the injection off
    ([case "n", "not", "false", "off"]). *)
Definition negativeValues : list string := ["n"; "not"; "false"; "off"].

Definition mutationRequired (metadata : ObjectMeta) : bool :=
  if negb (indexOk (Labels metadata) "notebook-name") then false
  else
    let annotations :=
      match Annotations metadata with
      | None => Some ∅
      | Some a => Some a
      end in
    let status := index annotations admissionWebhookAnnotationStatusKey in
    if String.eqb (ToLower mapUnicodeToLower status) "injected" then false
    else
      let v := ToLower mapUnicodeToLower
                 (index annotations admissionWebhookAnnotationInjectKey) in
      if String.eqb v "n" || String.eqb v "not"
         || String.eqb v "false" || String.eqb v "off"
      then false
      else true.

End MutationPolicy.

(** ** Patch builders *)

Definition addOp (path : string) (value : PatchValue) : patchOperation :=
  {| Op := "add"; Path := path; Value := value |}.

(** The loop of [addContainer]; [first] is the local flag of that name. *)
Fixpoint addContainerFrom (first : bool) (added : list Container)
  (basePath : string) : list patchOperation :=
  match added with
  | [] => []
  | add :: rest =>
      (if first
       then addOp basePath (VContainers [add])
       else addOp (basePath +:+ "/-") (VContainer add))
      :: addContainerFrom false rest basePath
  end.

Definition addContainer (target added : list Container) (basePath : string)
  : list patchOperation :=
  addContainerFrom (length target =? 0)%nat added basePath.

Fixpoint addVolumeFrom (first : bool) (added : list Volume)
  (basePath : string) : list patchOperation :=
  match added with
  | [] => []
  | add :: rest =>
      (if first
       then addOp basePath (VVolumes [add])
       else addOp (basePath +:+ "/-") (VVolume add))
      :: addVolumeFrom false rest basePath
  end.

Definition addVolume (target added : list Volume) (basePath : string)
  : list patchOperation :=
  addVolumeFrom (length target =? 0)%nat added basePath.

(** [added] lists the entries of the Go map in the order in which the
    [range] statement happens to visit them. *)
Fixpoint updateAnnotation (target : StringMap) (added : list (string * string))
  : list patchOperation :=
  match added with
  | [] => []
  | (key, value) :: rest =>
      if bool_decide (target = None) || String.eqb (index target key) ""
      then
        {| Op := "add"; Path := "/metadata/annotations";
           Value := VStringMap {[ key := value ]} |}
        :: updateAnnotation (Some ∅) rest
      else
        {| Op := "replace"; Path := "/metadata/annotations/" +:+ key;
           Value := VString value |}
        :: updateAnnotation target rest
  end.

Definition workingVolumeMount (volumeName bucketMount filerName : string) : M :=
  [ ("name", MString volumeName);
    ("mountPath",
      MString ("/home/jovyan/filers/" +:+ filerName +:+ "/" +:+ bucketMount));
    ("readOnly", MBool false);
    ("mountPropagation", MString "HostToContainer") ].

(** One operation for every environment entry named [NB_PREFIX], of every
    container, in the order of the two nested loops. *)
Definition updateWorkingVolumeMounts (targetContainerSpec : list Container)
  (volumeName bucketMount filerName : string) (isFirst : bool)
  : list patchOperation :=
  let valueA := workingVolumeMount volumeName bucketMount filerName in
  flat_map (λ c,
    flat_map (λ e,
      if String.eqb (EnvVar_Name e) "NB_PREFIX"
      then
        if isFirst
        then [ {| Op := "add"; Path := "/spec/containers/0/volumeMounts";
                  Value := VMs [valueA] |} ]
        else [ {| Op := "add"; Path := "/spec/containers/0/volumeMounts/-";
                  Value := VM valueA |} ]
      else [])
      (Container_Env c))
    targetContainerSpec.

(** ** The name grammar

    [regexp.MustCompile] and [MatchString] for patterns anchored at both
    ends, as [validNameRegex] is: the whole string has to match.  Matching is
    by derivatives, byte by byte; the classes of the pattern are ASCII, so a
    byte outside ASCII never matches, as in Go. *)

Inductive regex :=
| Void
| Eps
| Class (p : ascii → bool)
| Seq (r1 r2 : regex)
| Alt (r1 r2 : regex)
| Star (r : regex).

Fixpoint nullable (r : regex) : bool :=
  match r with
  | Void => false
  | Eps => true
  | Class _ => false
  | Seq r1 r2 => nullable r1 && nullable r2
  | Alt r1 r2 => nullable r1 || nullable r2
  | Star _ => true
  end.

Fixpoint deriv (c : ascii) (r : regex) : regex :=
  match r with
  | Void => Void
  | Eps => Void
  | Class p => if p c then Eps else Void
  | Seq r1 r2 =>
      if nullable r1
      then Alt (Seq (deriv c r1) r2) (deriv c r2)
      else Seq (deriv c r1) r2
  | Alt r1 r2 => Alt (deriv c r1) (deriv c r2)
  | Star r1 => Seq (deriv c r1) (Star r1)
  end.

Fixpoint MatchString (r : regex) (s : string) : bool :=
  match s with
  | EmptyString => nullable r
  | String c s' => MatchString (deriv c r) s'
  end.

(** [[a-z0-9]] and [[-a-z0-9]]. *)
Definition isLowerAlnum (c : ascii) : bool :=
  let n := N_of_ascii c in
  (((97 <=? n) && (n <=? 122)) || ((48 <=? n) && (n <=? 57)))%N.

Definition isDashLowerAlnum (c : ascii) : bool :=
  Ascii.eqb c "-" || isLowerAlnum c.

(** [^[a-z0-9]([-a-z0-9]*[a-z0-9])?$] *)
Definition validNameRegex : regex :=
  Seq (Class isLowerAlnum)
      (Alt (Seq (Star (Class isDashLowerAlnum)) (Class isLowerAlnum)) Eps).

(** ** Outcomes, the store and the state of one call of [createPatch] *)

Inductive Outcome (A : Type) : Type :=
| Ok (a : A)
| Panic (msg : string).
Arguments Ok {A} a.
Arguments Panic {A} msg.

#[global] Instance Outcome_ret : MRet Outcome := λ A a, Ok a.
#[global] Instance Outcome_bind : MBind Outcome := λ A B f m,
  match m with
  | Ok a => f a
  | Panic msg => Panic msg
  end.

(** [store] holds the [Config] objects that [*Config] pointers refer to; a
    pointer is an index into it, and an index outside the store plays the
    part of the nil pointer.  [randCalls] counts the calls of [rand.Intn]
    made so far.  The other fields are the local variables of [createPatch]
    that its loop updates. *)
Record LoopState := {
  store : list Config;
  randCalls : nat;
  patch : list patchOperation;
  filerBucketList : list string;
  isFirstVol : bool
}.

Definition Action (A : Type) : Type := LoopState → Outcome A * LoopState.

#[global] Instance Action_ret : MRet Action := λ A a st, (Ok a, st).
#[global] Instance Action_bind : MBind Action := λ A B f m st,
  match m st with
  | (Ok a, st') => f a st'
  | (Panic msg, st') => (Panic msg, st')
  end.

Definition panic {A} (msg : string) : Action A := λ st, (Panic msg, st).

Definition liftOutcome {A} (o : Outcome A) : Action A := λ st, (o, st).

Definition gets {A} (f : LoopState → A) : Action A := λ st, (Ok (f st), st).

Definition with_store (σ : list Config) (st : LoopState) : LoopState :=
  {| store := σ; randCalls := randCalls st; patch := patch st;
     filerBucketList := filerBucketList st; isFirstVol := isFirstVol st |}.

Definition with_randCalls (n : nat) (st : LoopState) : LoopState :=
  {| store := store st; randCalls := n; patch := patch st;
     filerBucketList := filerBucketList st; isFirstVol := isFirstVol st |}.

Definition with_patch (p : list patchOperation) (st : LoopState) : LoopState :=
  {| store := store st; randCalls := randCalls st; patch := p;
     filerBucketList := filerBucketList st; isFirstVol := isFirstVol st |}.

Definition with_filerBucketList (l : list string) (st : LoopState)
  : LoopState :=
  {| store := store st; randCalls := randCalls st; patch := patch st;
     filerBucketList := l; isFirstVol := isFirstVol st |}.

Definition with_isFirstVol (b : bool) (st : LoopState) : LoopState :=
  {| store := store st; randCalls := randCalls st; patch := patch st;
     filerBucketList := filerBucketList st; isFirstVol := b |}.

Definition set_store (σ : list Config) : Action unit :=
  λ st, (Ok tt, with_store σ st).
Definition set_randCalls (n : nat) : Action unit :=
  λ st, (Ok tt, with_randCalls n st).
Definition set_patch (p : list patchOperation) : Action unit :=
  λ st, (Ok tt, with_patch p st).
Definition set_filerBucketList (l : list string) : Action unit :=
  λ st, (Ok tt, with_filerBucketList l st).
Definition set_isFirstVol (b : bool) : Action unit :=
  λ st, (Ok tt, with_isFirstVol b st).

(** [patch = append(patch, ops...)] *)
Definition appendPatch (ops : list patchOperation) : Action unit :=
  p ← gets patch; set_patch (p ++ ops).

(** [l[i]], which panics outside the slice. *)
Definition at_ {A} (l : list A) (i : nat) : Action A :=
  match l !! i with
  | Some a => mret a
  | None => panic "index out of range"
  end.

(** [deepcopy.Anything] on a [*Config]: a new object that shares nothing
    with the one pointed to; the nil pointer is returned as it is.  The
    library copies by reflection: a slice element by element, a struct field
    by field, a nil pointer to a nil pointer, and a map into a map it makes
    afresh with [reflect.MakeMapWithSize], so that a nil map of the original
    is an empty map in the copy. *)
Definition deepcopy_CSIVolumeSource (csi : CSIVolumeSource)
  : CSIVolumeSource :=
  {| CSI_Driver := CSI_Driver csi;
     CSI_VolumeAttributes := Some (default ∅ (CSI_VolumeAttributes csi)) |}.

Definition deepcopy_Volume (v : Volume) : Volume :=
  {| Volume_Name := Volume_Name v;
     Volume_CSI := deepcopy_CSIVolumeSource <$> Volume_CSI v |}.

Definition deepcopy_Config (cfg : Config) : Config :=
  {| Containers := Containers cfg;
     Volumes := deepcopy_Volume <$> Volumes cfg |}.

Definition deepcopy_Anything (p : nat) : Action nat :=
  σ ← gets store;
  match σ !! p with
  | Some cfg => set_store (σ ++ [deepcopy_Config cfg]);; mret (length σ)
  | None => mret p
  end.

(** A write through the pointer [q]: [f] computes the new value of the
    object, or panics. *)
Definition update (q : nat) (f : Config → Outcome Config) : Action unit :=
  σ ← gets store;
  match σ !! q with
  | None => panic "invalid memory address or nil pointer dereference"
  | Some cfg =>
      cfg' ← liftOutcome (f cfg);
      set_store (<[q := cfg']> σ)
  end.

(** A read through the pointer [q]. *)
Definition load (q : nat) : Action Config :=
  σ ← gets store;
  match σ !! q with
  | None => panic "invalid memory address or nil pointer dereference"
  | Some cfg => mret cfg
  end.

(** *** Paths into a [Config] *)

Definition atIndex {A} (i : nat) (f : A → Outcome A) (l : list A)
  : Outcome (list A) :=
  match l !! i with
  | None => Panic "index out of range"
  | Some a => a' ← f a; mret (<[i := a']> l)
  end.

Definition inContainers (i : nat) (f : Container → Outcome Container)
  (cfg : Config) : Outcome Config :=
  cs ← atIndex i f (Containers cfg);
  mret {| Containers := cs; Volumes := Volumes cfg |}.

Definition inVolumes (i : nat) (f : Volume → Outcome Volume)
  (cfg : Config) : Outcome Config :=
  vs ← atIndex i f (Volumes cfg);
  mret {| Containers := Containers cfg; Volumes := vs |}.

Definition inEnv (i : nat) (f : EnvVar → Outcome EnvVar) (c : Container)
  : Outcome Container :=
  es ← atIndex i f (Container_Env c);
  mret {| Container_Name := Container_Name c;
          Container_Args := Container_Args c;
          Container_Env := es;
          Container_VolumeMounts := Container_VolumeMounts c |}.

Definition inVolumeMounts (i : nat) (f : VolumeMount → Outcome VolumeMount)
  (c : Container) : Outcome Container :=
  ms ← atIndex i f (Container_VolumeMounts c);
  mret {| Container_Name := Container_Name c;
          Container_Args := Container_Args c;
          Container_Env := Container_Env c;
          Container_VolumeMounts := ms |}.

Definition inCSI (f : CSIVolumeSource → Outcome CSIVolumeSource) (v : Volume)
  : Outcome Volume :=
  match Volume_CSI v with
  | None => Panic "invalid memory address or nil pointer dereference"
  | Some csi =>
      csi' ← f csi;
      mret {| Volume_Name := Volume_Name v; Volume_CSI := Some csi' |}
  end.

Definition setContainerName (x : string) (c : Container) : Outcome Container :=
  Ok {| Container_Name := x;
        Container_Args := Container_Args c;
        Container_Env := Container_Env c;
        Container_VolumeMounts := Container_VolumeMounts c |}.

Definition setContainerArgs (x : list string) (c : Container)
  : Outcome Container :=
  Ok {| Container_Name := Container_Name c;
        Container_Args := x;
        Container_Env := Container_Env c;
        Container_VolumeMounts := Container_VolumeMounts c |}.

Definition setEnvValue (x : string) (e : EnvVar) : Outcome EnvVar :=
  Ok {| EnvVar_Name := EnvVar_Name e; EnvVar_Value := x |}.

Definition setMountName (x : string) (m : VolumeMount) : Outcome VolumeMount :=
  Ok {| VolumeMount_Name := x;
        VolumeMount_MountPath := VolumeMount_MountPath m |}.

Definition setMountPath (x : string) (m : VolumeMount) : Outcome VolumeMount :=
  Ok {| VolumeMount_Name := VolumeMount_Name m; VolumeMount_MountPath := x |}.

Definition setVolumeName (x : string) (v : Volume) : Outcome Volume :=
  Ok {| Volume_Name := x; Volume_CSI := Volume_CSI v |}.

(** [csi.VolumeAttributes[k] = x] *)
Definition setVolumeAttribute (k x : string) (csi : CSIVolumeSource)
  : Outcome CSIVolumeSource :=
  match CSI_VolumeAttributes csi with
  | None => Panic "assignment to entry in nil map"
  | Some m =>
      Ok {| CSI_Driver := CSI_Driver csi;
            CSI_VolumeAttributes := Some (<[k := x]> m) |}
  end.

(** ** Naming *)

(** [str[:length]] cuts bytes. *)
Definition limitString (str : string) (length : nat) : string :=
  if (length <? String.length str)%nat then String.substring 0 length str
  else str.

Definition cleanName (name : string) : string :=
  let name := ReplaceAll name "--" "-" in
  let name := TrimRight name "-" in
  name.

Section Webhook.

(** [rand_Intn k n] is what the [k]-th call of [rand.Intn] in the life of
    the process returns when it is asked for a number below [n]. *)
Variable rand_Intn : nat → nat → nat.

(** The JSON encoding of one patch operation by [json.Marshal]. *)
Variable marshalOp : patchOperation → string.

Definition appendIntIfNeeded (name : string) : Action string :=
  if ContainsAny name "!@#$%^&*()"
  then
    k ← gets randCalls;
    set_randCalls (S k);;
    mret (name +:+ Itoa (rand_Intn k 100))
  else mret name.

(** Lines 259 to 289 of [createPatch]: the name of the sidecar of one
    credential, recorded in [filerBucketList]. *)
Definition makeNameToken (filerName bucketMount : string) : Action string :=
  let bucketDirs := Split bucketMount "/" in
  let limitFilerName := limitString filerName 7 in
  bucket ← at_ bucketDirs 0;
  let limitBucketName := limitString bucket 5 in
  let filerBucketName := limitFilerName +:+ "-" +:+ limitBucketName in
  let filerBucketName := ReplaceAll filerBucketName "--" "-" in
  let filerBucketName := TrimRight filerBucketName "-" in
  filerBucketName ←
    (if negb (MatchString validNameRegex filerBucketName)
     then
       let filerBucketName := cleanName filerBucketName in
       if negb (MatchString validNameRegex filerBucketName)
       then appendIntIfNeeded filerBucketName
       else mret filerBucketName
     else mret filerBucketName);
  filerBucketName ←
    (if (2 <=? length bucketDirs)%nat
     then
       deepest ← at_ bucketDirs (length bucketDirs - 1);
       let limitDeepestDirName := limitString deepest 5 in
       mret (filerBucketName +:+ "-" +:+ limitDeepestDirName)
     else mret filerBucketName);
  usedNames ← gets filerBucketList;
  let filerBucketName :=
    if bool_decide (filerBucketName ∈ usedNames)
    then filerBucketName +:+ "-" +:+ Itoa (length usedNames + 1)
    else filerBucketName in
  set_filerBucketList (usedNames ++ [filerBucketName]);;
  mret filerBucketName.

(** Lines 291 to 307: the writes into the copy of the template. *)
Definition fillSidecarConfig (sidecarConfig : nat)
  (filerBucketName namespace bucketMount s3Url s3Access s3Secret : string)
  : Action unit :=
  update sidecarConfig (inContainers 0 (setContainerName filerBucketName));;
  update sidecarConfig (inContainers 0 (setContainerArgs
    ["-c";
     "/goofys --cheap --endpoint " +:+ s3Url +:+
     " --http-timeout 1500s --dir-mode 0777 --file-mode 0777  --debug_fuse --debug_s3 -o allow_other -f " +:+
     bucketMount +:+ "/ /tmp; echo sleeping...; sleep infinity"]));;
  update sidecarConfig (inContainers 0 (inEnv 0 (setEnvValue
    ("fusermount3-proxy-" +:+ filerBucketName +:+ "-" +:+ namespace +:+
     "/fuse-csi-ephemeral.sock"))));;
  update sidecarConfig (inContainers 0 (inEnv 1 (setEnvValue s3Access)));;
  update sidecarConfig (inContainers 0 (inEnv 2 (setEnvValue s3Secret)));;
  let fdPassingvolumeMountName :=
    "fuse-fd-passing-" +:+ filerBucketName +:+ "-" +:+ namespace in
  update sidecarConfig (inContainers 0 (inVolumeMounts 0
    (setMountName fdPassingvolumeMountName)));;
  update sidecarConfig (inContainers 0 (inVolumeMounts 0 (setMountPath
    ("fusermount3-proxy-" +:+ filerBucketName +:+ "-" +:+ namespace))));;
  update sidecarConfig (inVolumes 0 (setVolumeName fdPassingvolumeMountName));;
  let csiEphemeralVolumeountName :=
    "fuse-csi-ephemeral-" +:+ filerBucketName +:+ "-" +:+ namespace in
  update sidecarConfig (inVolumes 1 (setVolumeName csiEphemeralVolumeountName));;
  update sidecarConfig (inVolumes 1 (inCSI
    (setVolumeAttribute "fdPassingEmptyDirName" fdPassingvolumeMountName))).

(** The body of the loop over [secretList.Items].  The containers and volumes
    handed to the builders are read from the copy once it is filled in; the
    copy is private to this iteration and no later statement writes to it, so
    what [json.Marshal] encodes at the end is what is read here. *)
Definition processSecret (pod : Pod) (sidecarConfigTemplate : nat)
  (annotations : list (string * string)) (secret : Secret) : Action unit :=
  if Contains (Secret_Name secret) "filer-conn-secret"
  then
    let filerNameList := Split (Secret_Name secret) "-" in
    filerName ←
      (if (1 <? length filerNameList)%nat then at_ filerNameList 0
       else mret "error");
    sidecarConfig ← deepcopy_Anything sidecarConfigTemplate;
    let bucketMount := index (Secret_Data secret) "S3_BUCKET" in
    let s3Url := index (Secret_Data secret) "S3_URL" in
    let s3Access := index (Secret_Data secret) "S3_ACCESS" in
    let s3Secret := index (Secret_Data secret) "S3_SECRET" in
    if String.eqb bucketMount "" || String.eqb s3Url ""
       || String.eqb s3Access "" || String.eqb s3Secret ""
    then mret tt
    else
      let namespace := Namespace (Pod_ObjectMeta pod) in
      filerBucketName ← makeNameToken filerName bucketMount;
      fillSidecarConfig sidecarConfig filerBucketName namespace bucketMount
        s3Url s3Access s3Secret;;
      let csiEphemeralVolumeountName :=
        "fuse-csi-ephemeral-" +:+ filerBucketName +:+ "-" +:+ namespace in
      cfg ← load sidecarConfig;
      appendPatch (addContainer (Spec_Containers (Pod_Spec pod))
                     (Containers cfg) "/spec/containers");;
      appendPatch (addVolume (Spec_Volumes (Pod_Spec pod))
                     (Volumes cfg) "/spec/volumes");;
      appendPatch (updateAnnotation (Annotations (Pod_ObjectMeta pod))
                     annotations);;
      isFirst ← gets isFirstVol;
      appendPatch (updateWorkingVolumeMounts (Spec_Containers (Pod_Spec pod))
                     csiEphemeralVolumeountName bucketMount filerName isFirst);;
      set_isFirstVol false
  else mret tt.

Fixpoint forSecrets (body : Secret → Action unit) (items : list Secret)
  : Action unit :=
  match items with
  | [] => mret tt
  | secret :: rest => body secret;; forSecrets body rest
  end.

(** [json.Marshal] of the [[]patchOperation] that [createPatch] builds.  The
    slice starts as the nil slice of [var patch []patchOperation] and only
    grows by [append], so it is nil exactly when it is empty, and a nil slice
    is encoded as [null].  The values held by the operations are structs,
    maps with string keys, slices, strings and booleans, which the encoder
    always accepts: the error result is always nil. *)
Definition json_Marshal (patch : list patchOperation) : string :=
  match patch with
  | [] => "null"
  | _ => "[" +:+ String.concat "," (map marshalOp patch) +:+ "]"
  end.

(** [createPatch], from the point where the secrets of the pod's namespace
    have been listed: [secretList] is [secretList.Items].  [Ok bytes] is the
    return of [bytes] with a nil error. *)
Definition createPatch (pod : Pod) (sidecarConfigTemplate : nat)
  (annotations : list (string * string)) (secretList : list Secret)
  : Action string :=
  set_patch [];;
  set_isFirstVol true;;
  (if (0 <? length (Spec_Volumes (Pod_Spec pod)))%nat
   then set_isFirstVol false else mret tt);;
  set_filerBucketList [];;
  forSecrets (processSecret pod sidecarConfigTemplate annotations) secretList;;
  p ← gets patch;
  mret (json_Marshal p).

(** [strings.Map(unicode.ToLower, _)], as in [mutationRequired]. *)
Variable mapUnicodeToLower : string → string.

(** [mutate], from the point where [req.Object.Raw] has been decoded into
    [pod].  [createPatch] never returns an error, so the branch that reports
    one is not entered. *)
Definition mutate (sidecarConfig : nat) (pod : Pod) (secretList : list Secret)
  : Action AdmissionResponse :=
  if negb (mutationRequired mapUnicodeToLower (Pod_ObjectMeta pod))
  then mret {| Allowed := true; Patch := None; PatchType := None |}
  else
    let annotations := [(admissionWebhookAnnotationStatusKey, "injected")] in
    patchBytes ← createPatch pod sidecarConfig annotations secretList;
    mret {| Allowed := true; Patch := Some patchBytes;
            PatchType := Some "JSONPatch" |}.

End Webhook.

(** ** The same code in closed form

    Pure functions that compute what the monadic code above computes; the
    lemmas of the second part prove the two equal, and the properties are
    then read off the closed forms. *)

(** Lines 259 to 269: [<filer>-<bucket>], doubled dashes replaced, trailing
    dashes trimmed. *)
Definition baseName (filerName bucketMount : string) : string :=
  TrimRight
    (ReplaceAll
       (limitString filerName 7 +:+ "-" +:+
        limitString (hd "" (Split bucketMount "/")) 5)
       "--" "-")
    "-".

(** The name fails the grammar, and fails it again after [cleanName]: the
    code reaches [appendIntIfNeeded]. *)
Definition onFallbackPath (filerName bucketMount : string) : bool :=
  negb (MatchString validNameRegex (baseName filerName bucketMount))
  && negb (MatchString validNameRegex
             (cleanName (baseName filerName bucketMount))).

(** [rand.Intn] is called. *)
Definition drawsRandom (filerName bucketMount : string) : bool :=
  onFallbackPath filerName bucketMount
  && ContainsAny (cleanName (baseName filerName bucketMount)) "!@#$%^&*()".

(** Lines 271 to 278, [r] being the number drawn if one is drawn. *)
Definition checkedName (r : nat) (filerName bucketMount : string) : string :=
  let name := baseName filerName bucketMount in
  if MatchString validNameRegex name then name
  else
    let name := cleanName name in
    if MatchString validNameRegex name then name
    else if ContainsAny name "!@#$%^&*()" then name +:+ Itoa r else name.

(** Lines 280 to 283. *)
Definition candidateName (r : nat) (filerName bucketMount : string) : string :=
  let bucketDirs := Split bucketMount "/" in
  if (2 <=? length bucketDirs)%nat
  then checkedName r filerName bucketMount +:+ "-" +:+
       limitString (default "" (last bucketDirs)) 5
  else checkedName r filerName bucketMount.

(** Lines 285 to 288. *)
Definition uniqueName (usedNames : list string) (name : string) : string :=
  if bool_decide (name ∈ usedNames)
  then name +:+ "-" +:+ Itoa (length usedNames + 1)
  else name.

(** Lines 233 to 237. *)
Definition filerNameOf (secret : Secret) : string :=
  let filerNameList := Split (Secret_Name secret) "-" in
  if (1 <? length filerNameList)%nat then hd "" filerNameList else "error".

(** Line 251. *)
Definition missingField (secret : Secret) : bool :=
  String.eqb (index (Secret_Data secret) "S3_BUCKET") ""
  || String.eqb (index (Secret_Data secret) "S3_URL") ""
  || String.eqb (index (Secret_Data secret) "S3_ACCESS") ""
  || String.eqb (index (Secret_Data secret) "S3_SECRET") "".

(** Line 231. *)
Definition isCandidate (secret : Secret) : bool :=
  Contains (Secret_Name secret) "filer-conn-secret".

(** The grammar as a direct test: [endsInAlnum] is [[-a-z0-9]*[a-z0-9]] and
    [validNameb] the whole pattern. *)
Fixpoint endsInAlnum (s : string) : bool :=
  match s with
  | EmptyString => false
  | String c s' =>
      match s' with
      | EmptyString => isLowerAlnum c
      | String _ _ => isDashLowerAlnum c && endsInAlnum s'
      end
  end.

Definition validNameb (s : string) : bool :=
  match s with
  | EmptyString => false
  | String c s' =>
      isLowerAlnum c &&
      match s' with
      | EmptyString => true
      | String _ _ => endsInAlnum s'
      end
  end.

(** The state after the naming code of a valid credential. *)
Definition named (rand_Intn : nat → nat → nat) (secret : Secret)
  (st : LoopState) : LoopState :=
  let bucketMount := index (Secret_Data secret) "S3_BUCKET" in
  let filerName := filerNameOf secret in
  with_filerBucketList
    (filerBucketList st ++
     [uniqueName (filerBucketList st)
        (candidateName (rand_Intn (randCalls st) 100) filerName bucketMount)])
    (if drawsRandom filerName bucketMount
     then with_randCalls (S (randCalls st)) st else st).

(** Lines 291 to 307 as one function of the copied object. *)
Definition specialize
  (filerBucketName namespace bucketMount s3Url s3Access s3Secret : string)
  (cfg : Config) : Outcome Config :=
  let fdPassingvolumeMountName :=
    "fuse-fd-passing-" +:+ filerBucketName +:+ "-" +:+ namespace in
  let csiEphemeralVolumeountName :=
    "fuse-csi-ephemeral-" +:+ filerBucketName +:+ "-" +:+ namespace in
  cfg ← inContainers 0 (setContainerName filerBucketName) cfg;
  cfg ← inContainers 0 (setContainerArgs
    ["-c";
     "/goofys --cheap --endpoint " +:+ s3Url +:+
     " --http-timeout 1500s --dir-mode 0777 --file-mode 0777  --debug_fuse --debug_s3 -o allow_other -f " +:+
     bucketMount +:+ "/ /tmp; echo sleeping...; sleep infinity"]) cfg;
  cfg ← inContainers 0 (inEnv 0 (setEnvValue
    ("fusermount3-proxy-" +:+ filerBucketName +:+ "-" +:+ namespace +:+
     "/fuse-csi-ephemeral.sock"))) cfg;
  cfg ← inContainers 0 (inEnv 1 (setEnvValue s3Access)) cfg;
  cfg ← inContainers 0 (inEnv 2 (setEnvValue s3Secret)) cfg;
  cfg ← inContainers 0 (inVolumeMounts 0
    (setMountName fdPassingvolumeMountName)) cfg;
  cfg ← inContainers 0 (inVolumeMounts 0 (setMountPath
    ("fusermount3-proxy-" +:+ filerBucketName +:+ "-" +:+ namespace))) cfg;
  cfg ← inVolumes 0 (setVolumeName fdPassingvolumeMountName) cfg;
  cfg ← inVolumes 1 (setVolumeName csiEphemeralVolumeountName) cfg;
  inVolumes 1 (inCSI
    (setVolumeAttribute "fdPassingEmptyDirName" fdPassingvolumeMountName)) cfg.

(** The operations that one valid credential adds to the patch, [cfg] being
    the filled-in copy (lines 309 to 312). *)
Definition credentialOps (pod : Pod) (annotations : list (string * string))
  (cfg : Config) (filerBucketName bucketMount filerName : string)
  (isFirst : bool) : list patchOperation :=
  addContainer (Spec_Containers (Pod_Spec pod)) (Containers cfg)
    "/spec/containers"
  ++ addVolume (Spec_Volumes (Pod_Spec pod)) (Volumes cfg) "/spec/volumes"
  ++ updateAnnotation (Annotations (Pod_ObjectMeta pod)) annotations
  ++ updateWorkingVolumeMounts (Spec_Containers (Pod_Spec pod))
       ("fuse-csi-ephemeral-" +:+ filerBucketName +:+ "-" +:+
        Namespace (Pod_ObjectMeta pod))
       bucketMount filerName isFirst.

(** Two states agree on everything but the store, where they agree on the
    length and outside the address [q]. *)
Definition sameExceptAt (q : nat) (st st' : LoopState) : Prop :=
  randCalls st' = randCalls st ∧ patch st' = patch st ∧
  filerBucketList st' = filerBucketList st ∧ isFirstVol st' = isFirstVol st ∧
  length (store st') = length (store st) ∧
  ∀ i, i ≠ q → store st' !! i = store st !! i.

(** The action [a] writes to the object at [q] what [g] computes, or panics
    where [g] does, then leaving every other object as it was. *)
Definition runsAs (q : nat) (a : Action unit) (g : Config → Outcome Config)
  : Prop :=
  ∀ st t, store st !! q = Some t →
    match g t with
    | Ok cfg => a st = (Ok tt, with_store (<[q := cfg]> (store st)) st)
    | Panic m => fst (a st) = Panic m ∧ sameExceptAt q st (snd (a st))
    end.

(** The local variables of [createPatch] when its loop starts (lines 209 and
    222 to 228). *)
Definition initState (pod : Pod) (st : LoopState) : LoopState :=
  {| store := store st; randCalls := randCalls st; patch := [];
     filerBucketList := [];
     isFirstVol := negb (0 <? length (Spec_Volumes (Pod_Spec pod)))%nat |}.

(** Every object of the store of [st] is still there, unchanged, in [st']. *)
Definition keepsObjects (st st' : LoopState) : Prop :=
  length (store st) ≤ length (store st') ∧
  ∀ i, i < length (store st) → store st' !! i = store st !! i.

(** Two states with the same loop variables, the same random source and the
    same object behind the pointer [p]. *)
Definition sameLocals (p : nat) (st1 st2 : LoopState) : Prop :=
  randCalls st1 = randCalls st2 ∧ patch st1 = patch st2 ∧
  filerBucketList st1 = filerBucketList st2 ∧
  isFirstVol st1 = isFirstVol st2 ∧
  store st1 !! p = store st2 !! p.

(** A credential that the loop passes over: its name does not mark it as a
    filer secret, or one of its four fields is empty. *)
Definition skipped (secret : Secret) : Prop :=
  isCandidate secret = false ∨ missingField secret = true.

(** The two couplings by name of a filled-in sidecar. *)
Definition sameNameCouplings (nameToken namespace : string) (cfg : Config)
  : Prop :=
  ∃ c m v0 v1 csi attrs,
    Containers cfg !! 0 = Some c ∧
    Container_VolumeMounts c !! 0 = Some m ∧
    Volumes cfg !! 0 = Some v0 ∧
    Volumes cfg !! 1 = Some v1 ∧
    Volume_CSI v1 = Some csi ∧
    CSI_VolumeAttributes csi = Some attrs ∧
    VolumeMount_Name m = Volume_Name v0 ∧
    Volume_Name v0 =
      "fuse-fd-passing-" +:+ nameToken +:+ "-" +:+ namespace ∧
    attrs !! "fdPassingEmptyDirName" = Some (Volume_Name v0).

(** The template of section 3 of the specification: at least one container
    with three environment entries and one volume mount, and two volumes,
    the second a CSI volume with an allocated attribute map. *)
Definition templateShape (tmpl : Config) : Prop :=
  ∃ c cs e0 e1 e2 es m ms v0 v1 vs csi attrs,
    Containers tmpl = c :: cs ∧
    Container_Env c = e0 :: e1 :: e2 :: es ∧
    Container_VolumeMounts c = m :: ms ∧
    Volumes tmpl = v0 :: v1 :: vs ∧
    Volume_CSI v1 = Some csi ∧
    CSI_VolumeAttributes csi = Some attrs.

(** What [updateWorkingVolumeMounts] may emit for a given [isFirst]. *)
Definition mountOpFor (isFirst : bool) (m : M) (op : patchOperation) : Prop :=
  Op op = "add" ∧
  if isFirst
  then Path op = "/spec/containers/0/volumeMounts" ∧ Value op = VMs [m]
  else Path op = "/spec/containers/0/volumeMounts/-" ∧ Value op = VM m.

(** ** Concrete objects for the examples *)

(** A sidecar template of the shape the webhook is deployed with. *)
Definition exampleTemplate : Config :=
  {| Containers :=
       [ {| Container_Name := "sidecar";
            Container_Args := [];
            Container_Env :=
              [ {| EnvVar_Name := "FUSERMOUNT3PROXY_FDPASSING_SOCKPATH";
                   EnvVar_Value := "" |};
                {| EnvVar_Name := "AWS_ACCESS_KEY_ID"; EnvVar_Value := "" |};
                {| EnvVar_Name := "AWS_SECRET_ACCESS_KEY";
                   EnvVar_Value := "" |} ];
            Container_VolumeMounts :=
              [ {| VolumeMount_Name := "fuse-fd-passing";
                   VolumeMount_MountPath := "/fusermount3-proxy" |} ] |} ];
     Volumes :=
       [ {| Volume_Name := "fuse-fd-passing"; Volume_CSI := None |};
         {| Volume_Name := "fuse-csi-ephemeral";
            Volume_CSI :=
              Some {| CSI_Driver := "meta-fuse-csi-plugin.csi.storage.pfn.io";
                      CSI_VolumeAttributes :=
                        Some {[ "fdPassingEmptyDirName" :=
                                  "fuse-fd-passing" ]} |} |} ] |}.

(** The template is the only object of the store, at address 0. *)
Definition exampleState : LoopState :=
  {| store := [exampleTemplate]; randCalls := 0; patch := [];
     filerBucketList := []; isFirstVol := false |}.

Definition exampleRand : nat → nat → nat := λ _ _, 7.

Definition exampleMarshal : patchOperation → string :=
  λ op, Op op +:+ " " +:+ Path op.

Definition exampleLower : string → string := λ s, s.

Definition exampleAnnotations : list (string * string) :=
  [(admissionWebhookAnnotationStatusKey, "injected")].

Definition notebookContainer (mounts : list VolumeMount) : Container :=
  {| Container_Name := "notebook"; Container_Args := [];
     Container_Env := [ {| EnvVar_Name := "NB_PREFIX";
                           EnvVar_Value := "/notebook/ns/nb" |} ];
     Container_VolumeMounts := mounts |}.

(** A notebook pod of namespace [ns] without volumes. *)
Definition examplePod : Pod :=
  {| Pod_ObjectMeta :=
       {| Name := "nb-0"; Namespace := "ns";
          Labels := Some {[ "notebook-name" := "nb" ]};
          Annotations := None |};
     Pod_Spec := {| Spec_Containers := [notebookContainer []];
                    Spec_Volumes := [] |} |}.

Definition exampleSecret (name bucket url access secret : string) : Secret :=
  {| Secret_Name := name;
     Secret_Data :=
       Some (<[ "S3_BUCKET" := bucket ]> (<[ "S3_URL" := url ]>
             (<[ "S3_ACCESS" := access ]> {[ "S3_SECRET" := secret ]}))) |}.

(** A complete filer secret. *)
Definition filerSecret (name bucket : string) : Secret :=
  exampleSecret name bucket "https://s3.example" "AK" "SK".

(** A secret of another kind, complete all the same. *)
Definition otherSecret : Secret :=
  exampleSecret "registry-credentials" "data" "https://s3.example" "AK" "SK".

(** A filer secret without its access key. *)
Definition incompleteSecret : Secret :=
  exampleSecret "acct-filer-conn-secret" "data" "https://s3.example" "" "SK".

(** A pod without volumes, whose first container nevertheless has a volume
    mount, and with a second container that also carries [NB_PREFIX]. *)
Definition mountedPod : Pod :=
  {| Pod_ObjectMeta :=
       {| Name := "nb-0"; Namespace := "ns";
          Labels := Some {[ "notebook-name" := "nb" ]};
          Annotations := None |};
     Pod_Spec :=
       {| Spec_Containers :=
            [ notebookContainer
                [ {| VolumeMount_Name := "workspace";
                     VolumeMount_MountPath := "/home/jovyan" |} ];
              notebookContainer [] ];
          Spec_Volumes := [] |} |}.

(** Three filer secrets of one filer; the first and the third mount the same
    bucket. *)
Definition collidingSecrets : list Secret :=
  [ filerSecret "acct-filer-conn-secret-1" "data";
    filerSecret "acct-filer-conn-secret-2" "data/3";
    filerSecret "acct-filer-conn-secret-3" "data" ].

(** ** Further notions used to state properties of the code *)

(** The last byte of a string. *)
Fixpoint lastByte (s : string) : option ascii :=
  match s with
  | EmptyString => None
  | String c s' =>
      match s' with
      | EmptyString => Some c
      | String _ _ => lastByte s'
      end
  end.

(** Every byte is a dash, a lower-case letter or a digit. *)
Definition allDashLowerAlnum (s : string) : bool :=
  forallb isDashLowerAlnum (list_ascii_of_string s).

(** The last segment of a mount path, cut as line 281 cuts it. *)
Definition deepestDirName (bucketMount : string) : string :=
  limitString (default "" (last (Split bucketMount "/"))) 5.

(** The containers, and the volumes, that a patch operation carries. *)
Definition containersOf (op : patchOperation) : list Container :=
  match Value op with
  | VContainer c => [c]
  | VContainers cs => cs
  | _ => []
  end.

Definition volumesOf (op : patchOperation) : list Volume :=
  match Value op with
  | VVolume v => [v]
  | VVolumes vs => vs
  | _ => []
  end.

(** The two operations that [updateAnnotation] can emit for an entry. *)
Definition annotationAddOp (entry : string * string) : patchOperation :=
  {| Op := "add"; Path := "/metadata/annotations";
     Value := VStringMap {[ entry.1 := entry.2 ]} |}.

Definition annotationReplaceOp (entry : string * string) : patchOperation :=
  {| Op := "replace"; Path := "/metadata/annotations/" +:+ entry.1;
     Value := VString entry.2 |}.

(** The environment entries named [NB_PREFIX] of a list of containers. *)
Definition nbPrefixCount (containers : list Container) : nat :=
  length (filter (λ e, EnvVar_Name e = "NB_PREFIX")
            (flat_map Container_Env containers)).

(** The operation that [updateWorkingVolumeMounts] emits for one such entry. *)
Definition workingMountOp (volumeName bucketMount filerName : string)
  (isFirst : bool) : patchOperation :=
  if isFirst
  then {| Op := "add"; Path := "/spec/containers/0/volumeMounts";
          Value := VMs [workingVolumeMount volumeName bucketMount filerName] |}
  else {| Op := "add"; Path := "/spec/containers/0/volumeMounts/-";
          Value := VM (workingVolumeMount volumeName bucketMount filerName) |}.

(** A credential that the loop processes: a filer secret with its four
    fields (lines 231 and 251). *)
Definition isProcessed (secret : Secret) : bool :=
  isCandidate secret && negb (missingField secret).

(** The number of operations that one processed credential adds. *)
Definition opsPerCredential (pod : Pod) (annotations : list (string * string))
  (tmpl : Config) : nat :=
  length (Containers tmpl) + length (Volumes tmpl) + length annotations
  + nbPrefixCount (Spec_Containers (Pod_Spec pod)).

(** The number of credentials of a listing that the loop processes. *)
Fixpoint processedCount (secrets : list Secret) : nat :=
  match secrets with
  | [] => 0
  | secret :: rest =>
      (if isProcessed secret then 1 else 0) + processedCount rest
  end.

(** What the writes of lines 291 to 307 need of the template: a first
    container with three environment entries and a volume mount, and two
    volumes of which the second has a CSI source.  The attribute map of that
    source may be nil: the copy has a map of its own. *)
Definition writableShape (tmpl : Config) : Prop :=
  ∃ c cs e0 e1 e2 es m ms v0 v1 vs csi,
    Containers tmpl = c :: cs ∧
    Container_Env c = e0 :: e1 :: e2 :: es ∧
    Container_VolumeMounts c = m :: ms ∧
    Volumes tmpl = v0 :: v1 :: vs ∧
    Volume_CSI v1 = Some csi.

(** The template of the examples with the attribute map of its CSI source
    left nil. *)
Definition nilAttributesTemplate : Config :=
  {| Containers := Containers exampleTemplate;
     Volumes :=
       [ {| Volume_Name := "fuse-fd-passing"; Volume_CSI := None |};
         {| Volume_Name := "fuse-csi-ephemeral";
            Volume_CSI :=
              Some {| CSI_Driver := "meta-fuse-csi-plugin.csi.storage.pfn.io";
                      CSI_VolumeAttributes := None |} |} ] |}.

(** * Properties *)

(** ** The library functions on examples *)

Example Split_ex1 : Split "data/project" "/" = ["data"; "project"].
Proof. reflexivity. Qed.
Example Split_ex2 : Split "data/" "/" = ["data"; ""].
Proof. reflexivity. Qed.
Example Split_ex3 : Split "" "-" = [""].
Proof. reflexivity. Qed.
Example Split_ex4 : Split "a--b" "--" = ["a"; "b"].
Proof. reflexivity. Qed.
Example ReplaceAll_ex1 : ReplaceAll "a---b--" "--" "-" = "a--b-".
Proof. reflexivity. Qed.
Example TrimRight_ex1 : TrimRight "a-b--" "-" = "a-b".
Proof. reflexivity. Qed.
Example TrimRight_ex2 : TrimRight "---" "-" = "".
Proof. reflexivity. Qed.
Example Itoa_ex1 : Itoa 0 = "0" ∧ Itoa 12 = "12" ∧ Itoa 100 = "100".
Proof. repeat split; reflexivity. Qed.
Example ToLower_ex1 : ToLower (λ s, s) "InJecTed" = "injected".
Proof. reflexivity. Qed.

(** ** Mutation policy *)

Lemma ToLower_empty U : ToLower U "" = "".
Proof. reflexivity. Qed.

Lemma index_None_annotations (a : StringMap) k :
  index (match a with None => Some ∅ | Some m => Some m end) k = index a k.
Proof. by destruct a. Qed.

Lemma indexOk_false (m : StringMap) k :
  indexOk m k = false ↔ m ≫= (.!! k) = None.
Proof.
  unfold indexOk. rewrite bool_decide_eq_false, <- eq_None_not_Some. done.
Qed.

Lemma index_Some (m : StringMap) k v : m ≫= (.!! k) = Some v → index m k = v.
Proof. unfold index. by intros ->. Qed.

Lemma index_absent (m : StringMap) k : m ≫= (.!! k) = None → index m k = "".
Proof. unfold index. by intros ->. Qed.

Lemma negative_switch v :
  String.eqb v "n" || String.eqb v "not" || String.eqb v "false"
    || String.eqb v "off" = true
  ↔ v ∈ negativeValues.
Proof.
  unfold negativeValues.
  rewrite !orb_true_iff, !String.eqb_eq, !elem_of_cons, elem_of_nil.
  tauto.
Qed.

(** C1.  [mutationRequired] is false without the [notebook-name] label; it is
    false when the status annotation is, in lower case, [injected]; in the
    remaining case it is false exactly when the inject annotation is present
    with a lower-case value among n, not, false, off, and true otherwise, in
    particular when that annotation is absent. *)
Theorem mutationRequired_policy (U : string → string) (metadata : ObjectMeta) :
  let status :=
    index (Annotations metadata) admissionWebhookAnnotationStatusKey in
  let inject :=
    Annotations metadata ≫= (.!! admissionWebhookAnnotationInjectKey) in
  (Labels metadata ≫= (.!! "notebook-name") = None →
     mutationRequired U metadata = false) ∧
  (ToLower U status = "injected" → mutationRequired U metadata = false) ∧
  (is_Some (Labels metadata ≫= (.!! "notebook-name")) →
   ToLower U status ≠ "injected" →
     (mutationRequired U metadata = false ↔
        ∃ v, inject = Some v ∧ ToLower U v ∈ negativeValues) ∧
     (mutationRequired U metadata = true ↔
        ¬ ∃ v, inject = Some v ∧ ToLower U v ∈ negativeValues) ∧
     (inject = None → mutationRequired U metadata = true)).
Proof.
  intros status inject. unfold mutationRequired.
  rewrite !index_None_annotations. fold status.
  split; [|split].
  - intros Hl. apply indexOk_false in Hl. by rewrite Hl.
  - intros Hs. apply String.eqb_eq in Hs. rewrite Hs.
    by destruct (negb _).
  - intros Hl Hs.
    assert (indexOk (Labels metadata) "notebook-name" = true) as ->
      by (by apply bool_decide_eq_true).
    apply String.eqb_neq in Hs. rewrite Hs. cbn [negb].
    set (v0 := ToLower U (index _ admissionWebhookAnnotationInjectKey)).
    assert (v0 ∈ negativeValues ↔
            ∃ v, inject = Some v ∧ ToLower U v ∈ negativeValues) as Hv.
    { subst v0. unfold inject. split.
      - intros Hin. destruct (Annotations metadata ≫= _) as [v|] eqn:E.
        + exists v. split; [done|]. by rewrite (index_Some _ _ _ E) in Hin.
        + rewrite (index_absent _ _ E), ToLower_empty in Hin.
          unfold negativeValues in Hin.
          repeat (apply elem_of_cons in Hin as [Hin|Hin]; [discriminate|]).
          by apply elem_of_nil in Hin.
      - intros (v & E & Hin). by rewrite (index_Some _ _ _ E). }
    rewrite <- Hv, <- negative_switch.
    destruct (String.eqb v0 "n" || String.eqb v0 "not"
              || String.eqb v0 "false" || String.eqb v0 "off") eqn:Hsw.
    + split; [done|]. split; [split; [done|tauto]|].
      intros Hnone. exfalso.
      apply negative_switch, Hv in Hsw as (v & E & _). congruence.
    + split; [split; done|]. split; [split; [congruence|done]|done].
Qed.

(** The policy on a few objects. *)

Example mutationRequired_no_label :
  mutationRequired exampleLower
    {| Name := "p"; Namespace := "ns"; Labels := None;
       Annotations := None |} = false.
Proof. reflexivity. Qed.

Example mutationRequired_default :
  mutationRequired exampleLower (Pod_ObjectMeta examplePod) = true.
Proof. vm_compute. reflexivity. Qed.

Example mutationRequired_injected :
  mutationRequired exampleLower
    {| Name := "p"; Namespace := "ns";
       Labels := Some {[ "notebook-name" := "nb" ]};
       Annotations :=
         Some {[ admissionWebhookAnnotationStatusKey := "Injected" ]} |}
  = false.
Proof. vm_compute. reflexivity. Qed.

Example mutationRequired_off :
  mutationRequired exampleLower
    {| Name := "p"; Namespace := "ns";
       Labels := Some {[ "notebook-name" := "nb" ]};
       Annotations :=
         Some {[ admissionWebhookAnnotationInjectKey := "OFF" ]} |}
  = false.
Proof. vm_compute. reflexivity. Qed.

Example mutationRequired_yes :
  mutationRequired exampleLower
    {| Name := "p"; Namespace := "ns";
       Labels := Some {[ "notebook-name" := "nb" ]};
       Annotations :=
         Some {[ admissionWebhookAnnotationInjectKey := "no" ]} |}
  = true.
Proof. vm_compute. reflexivity. Qed.

(** ** The name grammar on examples *)

Example validName_ex1 : MatchString validNameRegex "acct-data" = true.
Proof. reflexivity. Qed.
Example validName_ex2 : MatchString validNameRegex "a" = true.
Proof. reflexivity. Qed.
Example validName_ex3 : MatchString validNameRegex "" = false.
Proof. reflexivity. Qed.
Example validName_ex4 : MatchString validNameRegex "acct-" = false.
Proof. reflexivity. Qed.
Example validName_ex5 : MatchString validNameRegex "-acct" = false.
Proof. reflexivity. Qed.
Example validName_ex6 : MatchString validNameRegex "Acct" = false.
Proof. reflexivity. Qed.
Example validName_ex7 : MatchString validNameRegex "a--b" = true.
Proof. reflexivity. Qed.

(** ** The matcher and the direct test agree *)

Lemma MatchString_Void s : MatchString Void s = false.
Proof. induction s; [done|]. by cbn. Qed.

Lemma MatchString_Eps s :
  MatchString Eps s = match s with EmptyString => true | _ => false end.
Proof. destruct s; [done|]. cbn. apply MatchString_Void. Qed.

Lemma MatchString_Alt r1 r2 s :
  MatchString (Alt r1 r2) s = MatchString r1 s || MatchString r2 s.
Proof. revert r1 r2. induction s as [|c s IH]; intros r1 r2; [done|]. apply IH. Qed.

Lemma MatchString_Seq_Void r s : MatchString (Seq Void r) s = false.
Proof. induction s; [done|]. by cbn. Qed.

Lemma MatchString_Seq_Eps r s : MatchString (Seq Eps r) s = MatchString r s.
Proof.
  destruct s as [|c s]; [done|]. cbn.
  by rewrite MatchString_Alt, MatchString_Seq_Void.
Qed.

Lemma MatchString_Seq_congr r r' r2 :
  (∀ s, MatchString r s = MatchString r' s) →
  ∀ s, MatchString (Seq r r2) s = MatchString (Seq r' r2) s.
Proof.
  intros H s. revert r r' H.
  induction s as [|c s IH]; intros r r' H.
  - cbn. by rewrite (H "" : nullable r = nullable r').
  - cbn. rewrite (H "" : nullable r = nullable r').
    assert (∀ s, MatchString (deriv c r) s = MatchString (deriv c r') s) as Hd
      by (intros s'; apply (H (String c s'))).
    destruct (nullable r'); [|by apply IH].
    rewrite !MatchString_Alt. f_equal. by apply IH.
Qed.

Lemma MatchString_tail s :
  MatchString (Seq (Star (Class isDashLowerAlnum)) (Class isLowerAlnum)) s
  = endsInAlnum s.
Proof.
  induction s as [|c s IH]; [done|].
  cbn [MatchString deriv nullable andb]. rewrite MatchString_Alt.
  cbn [endsInAlnum].
  destruct (isDashLowerAlnum c).
  - rewrite (MatchString_Seq_congr _ _ _ (MatchString_Seq_Eps _)), IH.
    destruct (isLowerAlnum c).
    + rewrite MatchString_Eps. destruct s; [done|]. by rewrite orb_false_r.
    + rewrite MatchString_Void. destruct s; [done|]. by rewrite orb_false_r.
  - rewrite (MatchString_Seq_congr _ Void _)
      by (intros; by rewrite MatchString_Seq_Void, MatchString_Void).
    rewrite MatchString_Seq_Void.
    destruct (isLowerAlnum c).
    + rewrite MatchString_Eps. by destruct s.
    + rewrite MatchString_Void. by destruct s.
Qed.

(** [MatchString validNameRegex] decides: not empty, every byte a dash, a
    lower-case letter or a digit, the first and the last not a dash. *)
Lemma MatchString_validName s :
  MatchString validNameRegex s = validNameb s.
Proof.
  destruct s as [|c s]; [done|].
  unfold validNameRegex. cbn [MatchString deriv nullable validNameb].
  destruct (isLowerAlnum c); cbn [andb].
  - rewrite MatchString_Seq_Eps, MatchString_Alt, MatchString_tail,
      MatchString_Eps.
    destruct s; [done|]. by rewrite orb_false_r.
  - apply MatchString_Seq_Void.
Qed.

Lemma isLowerAlnum_dash c : isLowerAlnum c = true → isDashLowerAlnum c = true.
Proof. unfold isDashLowerAlnum. intros ->. apply orb_true_r. Qed.

Lemma append_cons c s t : String c s +:+ t = String c (s +:+ t).
Proof. reflexivity. Qed.

Lemma endsInAlnum_cons c s :
  isDashLowerAlnum c = true → endsInAlnum s = true →
  endsInAlnum (String c s) = true.
Proof. intros Hc Hs. destruct s; [done|]. cbn [endsInAlnum]. by rewrite Hc. Qed.

Lemma endsInAlnum_app s t :
  endsInAlnum s = true → endsInAlnum t = true → endsInAlnum (s +:+ t) = true.
Proof.
  intros Hs Ht. induction s as [|c s IH]; [done|].
  rewrite append_cons. cbn [endsInAlnum] in Hs. destruct s as [|c' s].
  - apply endsInAlnum_cons; [by apply isLowerAlnum_dash|done].
  - apply andb_true_iff in Hs as [Hc Hs].
    apply endsInAlnum_cons; [done|by apply IH].
Qed.

Lemma validNameb_app s t :
  validNameb s = true → endsInAlnum t = true → validNameb (s +:+ t) = true.
Proof.
  intros Hs Ht. destruct s as [|c s]; [done|].
  rewrite append_cons. cbn [validNameb] in *.
  apply andb_true_iff in Hs as [-> Hs]. cbn [andb].
  destruct s as [|c' s].
  - change ("" +:+ t) with t. by destruct t.
  - rewrite append_cons. rewrite <- append_cons. by apply endsInAlnum_app.
Qed.

Lemma endsInAlnum_digits d :
  d ≠ Decimal.Nil → endsInAlnum (NilEmpty.string_of_uint d) = true.
Proof.
  induction d as [|d IH|d IH|d IH|d IH|d IH|d IH|d IH|d IH|d IH|d IH];
    intros Hd; [done|..];
    cbn [NilEmpty.string_of_uint];
    (assert (d = Decimal.Nil ∨ d ≠ Decimal.Nil) as [->|Hn]
       by (destruct d; (by left) || (by right));
     [reflexivity|by apply endsInAlnum_cons; [|apply IH]]).
Qed.

Lemma endsInAlnum_Itoa n : endsInAlnum (Itoa n) = true.
Proof.
  unfold Itoa, NilZero.string_of_uint.
  destruct (Nat.to_uint n) eqn:E; [done|..];
    rewrite <- E; apply endsInAlnum_digits; by rewrite E.
Qed.

(** A valid name stays valid when an ordinal is appended. *)
Lemma validNameb_suffix s n :
  validNameb s = true → validNameb (s +:+ "-" +:+ Itoa n) = true.
Proof.
  intros Hs. apply validNameb_app; [done|].
  change ("-" +:+ Itoa n) with (String "-" (Itoa n)).
  apply endsInAlnum_cons; [done|apply endsInAlnum_Itoa].
Qed.

(** ** What the naming code does guarantee *)

Lemma checkedName_valid r filerName bucketMount :
  onFallbackPath filerName bucketMount = false →
  MatchString validNameRegex (checkedName r filerName bucketMount) = true.
Proof.
  unfold onFallbackPath, checkedName. cbv zeta.
  destruct (MatchString validNameRegex (baseName _ _)) eqn:E0; [done|].
  destruct (MatchString validNameRegex (cleanName _)) eqn:E1; done.
Qed.

(** Off the fallback path and with a mount path of one segment, the name
    recorded matches the grammar, with or without an ordinal. *)
Lemma single_segment_name_valid r filerName bucketMount usedNames :
  length (Split bucketMount "/") = 1 →
  onFallbackPath filerName bucketMount = false →
  MatchString validNameRegex
    (uniqueName usedNames (candidateName r filerName bucketMount)) = true.
Proof.
  intros Hlen Hpath. unfold candidateName. cbv zeta. rewrite Hlen.
  cbn [Nat.leb]. pose proof (checkedName_valid r _ _ Hpath) as Hv.
  unfold uniqueName. destruct (bool_decide _); [|done].
  rewrite MatchString_validName in *. by apply validNameb_suffix.
Qed.

(** The name returned is one already recorded exactly when both the
    computed name and its suffixed form are recorded. *)
Lemma uniqueName_taken_iff usedNames name :
  uniqueName usedNames name ∈ usedNames ↔
  name ∈ usedNames ∧
  name +:+ "-" +:+ Itoa (length usedNames + 1) ∈ usedNames.
Proof.
  unfold uniqueName. destruct (bool_decide (name ∈ usedNames)) eqn:E.
  - apply bool_decide_eq_true in E. tauto.
  - apply bool_decide_eq_false in E. tauto.
Qed.

Lemma append_empty_r s : s +:+ "" = s.
Proof. induction s as [|c s IH]; [done|]. by rewrite append_cons, IH. Qed.

(** Computed a second time, with the first result recorded, a name comes
    back with a suffix and differs from the first. *)
Lemma uniqueName_second name :
  uniqueName [] name = name ∧
  uniqueName [name] name = name +:+ "-2" ∧
  uniqueName [name] name ≠ name.
Proof.
  unfold uniqueName.
  rewrite bool_decide_eq_false_2 by apply not_elem_of_nil.
  rewrite bool_decide_eq_true_2 by apply list_elem_of_here.
  split; [done|]. split; [done|].
  change (name +:+ "-" +:+ Itoa (length [name] + 1)) with (name +:+ "-2").
  intros H.
  assert (name +:+ "-2" = name +:+ "") as H' by (by rewrite append_empty_r).
  by apply (inj (String.append name)) in H'.
Qed.

(** ** The monadic code and its closed forms *)

Lemma splitFrom_cons sep s : ∀ skip cur,
  ∃ x l, splitFrom sep skip cur s = x :: l.
Proof.
  induction s as [|c s IH]; intros skip cur; cbn [splitFrom]; [by eauto|].
  destruct skip; [|by apply IH].
  case_match; [by eauto|by apply IH].
Qed.

Lemma Split_cons s sep : ∃ x l, Split s sep = x :: l.
Proof. apply splitFrom_cons. Qed.

Lemma lookup_last_cons {A} (x : A) l :
  (x :: l) !! (length (x :: l) - 1) = Some (default x (last (x :: l))).
Proof.
  rewrite last_lookup.
  replace (length (x :: l) - 1) with (length l) by (simpl; lia).
  replace (pred (length (x :: l))) with (length l) by (simpl; lia).
  destruct (lookup_lt_is_Some_2 (x :: l) (length l)) as [y Hy];
    [simpl; lia|].
  by rewrite Hy.
Qed.

Section WebhookFacts.

Variable R : nat → nat → nat.
Variable marshal : patchOperation → string.

Lemma appendIntIfNeeded_eq name st :
  appendIntIfNeeded R name st =
    if ContainsAny name "!@#$%^&*()"
    then (Ok (name +:+ Itoa (R (randCalls st) 100)),
          with_randCalls (S (randCalls st)) st)
    else (Ok name, st).
Proof. unfold appendIntIfNeeded. by destruct (ContainsAny _ _). Qed.

(** The naming code never panics; it returns [uniqueName] of
    [candidateName], records it, and advances the random source when it
    drew from it. *)
Lemma makeNameToken_eq filerName bucketMount st :
  let name := uniqueName (filerBucketList st)
                (candidateName (R (randCalls st) 100) filerName bucketMount) in
  makeNameToken R filerName bucketMount st =
    (Ok name,
     with_filerBucketList (filerBucketList st ++ [name])
       (if drawsRandom filerName bucketMount
        then with_randCalls (S (randCalls st)) st else st)).
Proof.
  unfold makeNameToken, uniqueName, candidateName, checkedName, drawsRandom,
    onFallbackPath, baseName, appendIntIfNeeded.
  destruct (Split_cons bucketMount "/") as (x & l & ->).
  pose proof (lookup_last_cons x l) as Hlast.
  destruct (last (x :: l)) as [y|] eqn:El;
    [|by destruct (last_is_Some (x :: l)) as [_ [? ?]]; [|congruence]].
  cbn [hd default] in *. unfold at_. rewrite Hlast.
  cbn [lookup list_lookup].
  unfold mbind, Action_bind, mret, Action_ret. cbv beta iota zeta.
  set (n0 := TrimRight _ _).
  destruct (MatchString validNameRegex n0) eqn:E0;
    destruct (MatchString validNameRegex (cleanName n0)) eqn:E1;
    destruct (ContainsAny (cleanName n0) "!@#$%^&*()") eqn:E3;
    destruct (2 <=? length (x :: l))%nat eqn:E2;
    reflexivity.
Qed.

(** *** Stepping through a bind *)

Lemma bind_eq {A B} (m : Action A) (k : A → Action B) st a st1 :
  m st = (Ok a, st1) → (m ≫= k) st = k a st1.
Proof. unfold mbind, Action_bind. by intros ->. Qed.

Lemma bind_panic {A B} (m : Action A) (k : A → Action B) st msg st1 :
  m st = (Panic msg, st1) → (m ≫= k) st = (Panic msg, st1).
Proof. unfold mbind, Action_bind. by intros ->. Qed.

Lemma bind_fst_panic {A B} (m : Action A) (k : A → Action B) st msg :
  fst (m st) = Panic msg →
  fst ((m ≫= k) st) = Panic msg ∧ snd ((m ≫= k) st) = snd (m st).
Proof.
  unfold mbind, Action_bind. destruct (m st) as [[a|msg'] st1]; simpl; [done|].
  by intros [= ->].
Qed.

(** *** Writes through a pointer *)

Lemma sameExceptAt_refl q st : sameExceptAt q st st.
Proof. by repeat split. Qed.

Lemma sameExceptAt_trans q st1 st2 st3 :
  sameExceptAt q st1 st2 → sameExceptAt q st2 st3 → sameExceptAt q st1 st3.
Proof.
  intros (?&?&?&?&?&Ha) (?&?&?&?&?&Hb).
  repeat split; try congruence. intros i Hi. by rewrite Hb, Ha.
Qed.

Lemma sameExceptAt_insert q cfg st :
  sameExceptAt q st (with_store (<[q := cfg]> (store st)) st).
Proof.
  repeat split; simpl; [by rewrite length_insert|].
  intros i Hi. by rewrite list_lookup_insert_ne.
Qed.

Lemma update_None q f st :
  store st !! q = None →
  update q f st =
    (Panic "invalid memory address or nil pointer dereference", st).
Proof.
  intros H. unfold update, gets, mbind, Action_bind. cbv beta iota.
  by rewrite H.
Qed.

Lemma runsAs_update q f : runsAs q (update q f) f.
Proof.
  intros st t H. unfold update, gets, liftOutcome, mbind, Action_bind.
  cbv beta iota. rewrite H. destruct (f t) as [cfg|m]; [done|].
  split; [done|]. apply sameExceptAt_refl.
Qed.

Lemma runsAs_seq q (a b : Action unit) f g :
  runsAs q a f → runsAs q b g →
  runsAs q (a ≫= λ _, b) (λ c, f c ≫= g).
Proof.
  intros Ha Hb st t Hq. specialize (Ha st t Hq).
  unfold mbind at 1, Outcome_bind. destruct (f t) as [c|m].
  - rewrite (bind_eq _ _ _ _ _ Ha).
    assert (store (with_store (<[q:=c]> (store st)) st) !! q = Some c) as Hq'.
    { simpl. apply list_lookup_insert_eq. by eapply lookup_lt_Some. }
    specialize (Hb _ _ Hq'). destruct (g c) as [cfg|m].
    + rewrite Hb. simpl. by rewrite list_insert_insert_eq.
    + destruct Hb as [Hb1 Hb2]. split; [done|].
      eapply sameExceptAt_trans; [apply sameExceptAt_insert|done].
  - destruct Ha as [Ha1 Ha2].
    destruct (bind_fst_panic a (λ _, b) st m Ha1) as [-> ->]. done.
Qed.

Lemma fillSidecarConfig_runsAs q name ns b u a s :
  runsAs q (fillSidecarConfig q name ns b u a s) (specialize name ns b u a s).
Proof.
  unfold fillSidecarConfig, specialize. cbv zeta.
  repeat (apply runsAs_seq; [apply runsAs_update|]).
  apply runsAs_update.
Qed.

Lemma fillSidecarConfig_None q name ns b u a s st :
  store st !! q = None →
  fillSidecarConfig q name ns b u a s st =
    (Panic "invalid memory address or nil pointer dereference", st).
Proof.
  intros H. unfold fillSidecarConfig.
  apply bind_panic. by apply update_None.
Qed.

(** *** One iteration of the loop *)

Lemma filerName_eq secret st :
  (if (1 <? length (Split (Secret_Name secret) "-"))%nat
   then at_ (Split (Secret_Name secret) "-") 0
   else mret "error") st = (Ok (filerNameOf secret), st).
Proof.
  unfold filerNameOf.
  destruct (Split_cons (Secret_Name secret) "-") as (x & l & ->).
  by destruct (1 <? _)%nat.
Qed.

Lemma deepcopy_Some p t st :
  store st !! p = Some t →
  deepcopy_Anything p st =
    (Ok (length (store st)),
     with_store (store st ++ [deepcopy_Config t]) st).
Proof.
  intros H. unfold deepcopy_Anything, gets, mbind, Action_bind.
  cbv beta iota. by rewrite H.
Qed.

Lemma deepcopy_None p st :
  store st !! p = None → deepcopy_Anything p st = (Ok p, st).
Proof.
  intros H. unfold deepcopy_Anything, gets, mbind, Action_bind.
  cbv beta iota. by rewrite H.
Qed.

Lemma processSecret_skip pod p ann secret st :
  isCandidate secret = false →
  processSecret R pod p ann secret st = (Ok tt, st).
Proof. unfold processSecret, isCandidate. by intros ->. Qed.

Lemma processSecret_invalid pod p ann secret st :
  isCandidate secret = true → missingField secret = true →
  processSecret R pod p ann secret st =
    (Ok tt,
     match store st !! p with
     | Some t => with_store (store st ++ [deepcopy_Config t]) st
     | None => st
     end).
Proof.
  unfold processSecret, isCandidate, missingField. intros -> Hm.
  rewrite (bind_eq _ _ _ _ _ (filerName_eq secret st)).
  destruct (store st !! p) as [t|] eqn:Hp.
  - rewrite (bind_eq _ _ _ _ _ (deepcopy_Some _ _ _ Hp)).
    cbv zeta. by rewrite Hm.
  - rewrite (bind_eq _ _ _ _ _ (deepcopy_None _ _ Hp)).
    cbv zeta. by rewrite Hm.
Qed.

Lemma processSecret_nil pod p ann secret st :
  isCandidate secret = true → missingField secret = false →
  store st !! p = None →
  processSecret R pod p ann secret st =
    (Panic "invalid memory address or nil pointer dereference",
     named R secret st).
Proof.
  unfold processSecret, isCandidate, missingField. intros -> Hm Hp.
  rewrite (bind_eq _ _ _ _ _ (filerName_eq secret st)).
  rewrite (bind_eq _ _ _ _ _ (deepcopy_None _ _ Hp)).
  cbv zeta. rewrite Hm.
  rewrite (bind_eq _ _ _ _ _ (makeNameToken_eq _ _ _)).
  apply bind_panic. apply fillSidecarConfig_None.
  unfold named. by destruct (drawsRandom _ _).
Qed.

Lemma processSecret_valid pod p ann secret st t :
  isCandidate secret = true → missingField secret = false →
  store st !! p = Some t →
  let bucketMount := index (Secret_Data secret) "S3_BUCKET" in
  let filerName := filerNameOf secret in
  let name := uniqueName (filerBucketList st)
    (candidateName (R (randCalls st) 100) filerName bucketMount) in
  match specialize name (Namespace (Pod_ObjectMeta pod)) bucketMount
          (index (Secret_Data secret) "S3_URL")
          (index (Secret_Data secret) "S3_ACCESS")
          (index (Secret_Data secret) "S3_SECRET") (deepcopy_Config t) with
  | Ok cfg =>
      processSecret R pod p ann secret st =
        (Ok tt,
         {| store := store st ++ [cfg];
            randCalls := randCalls (named R secret st);
            patch := patch st ++
              credentialOps pod ann cfg name bucketMount filerName
                (isFirstVol st);
            filerBucketList := filerBucketList st ++ [name];
            isFirstVol := false |})
  | Panic m =>
      fst (processSecret R pod p ann secret st) = Panic m ∧
      sameExceptAt (length (store st))
        (with_store (store st ++ [deepcopy_Config t]) (named R secret st))
        (snd (processSecret R pod p ann secret st))
  end.
Proof.
  intros Hc Hm Hp bucketMount filerName name.
  unfold processSecret. unfold isCandidate in Hc. rewrite Hc.
  unfold missingField in Hm.
  rewrite (bind_eq _ _ _ _ _ (filerName_eq secret st)).
  rewrite (bind_eq _ _ _ _ _ (deepcopy_Some _ _ _ Hp)).
  cbv zeta. rewrite Hm.
  rewrite (bind_eq _ _ _ _ _ (makeNameToken_eq _ _ _)).
  fold bucketMount filerName. cbn [filerBucketList with_store randCalls].
  fold name.
  set (st2 := with_filerBucketList _ _).
  assert (st2 = with_store (store st ++ [deepcopy_Config t])
                  (named R secret st)) as Hst2.
  { unfold st2, named. fold bucketMount filerName name.
    by destruct (drawsRandom _ _). }
  assert (store st2 !! length (store st) = Some (deepcopy_Config t)) as Hq.
  { rewrite Hst2. simpl. by rewrite lookup_app_r, Nat.sub_diag. }
  pose proof (fillSidecarConfig_runsAs (length (store st)) name
    (Namespace (Pod_ObjectMeta pod)) bucketMount
    (index (Secret_Data secret) "S3_URL")
    (index (Secret_Data secret) "S3_ACCESS")
    (index (Secret_Data secret) "S3_SECRET") st2 (deepcopy_Config t) Hq)
    as Hfill.
  destruct (specialize _ _ _ _ _ _ (deepcopy_Config t)) as [cfg|m].
  - rewrite (bind_eq _ _ _ _ _ Hfill).
    assert (<[length (store st):=cfg]> (store st2) = store st ++ [cfg]) as Hins.
    { rewrite Hst2. simpl.
      replace (length (store st)) with (length (store st) + 0) at 1 by lia.
      by rewrite insert_app_r. }
    rewrite Hins. clear Hfill Hins Hq.
    unfold load, appendPatch.
    unfold gets, set_patch, set_isFirstVol, mbind, Action_bind, mret,
      Action_ret.
    cbv beta iota. cbn [store with_store].
    rewrite lookup_app_r, Nat.sub_diag by done. cbn [lookup list_lookup].
    cbv beta iota.
    subst st2. unfold credentialOps, named.
    fold bucketMount filerName name.
    destruct (drawsRandom filerName bucketMount);
      cbn [store randCalls patch filerBucketList isFirstVol with_store
           with_randCalls with_patch with_filerBucketList with_isFirstVol];
      rewrite <- !app_assoc; reflexivity.
  - destruct Hfill as [Hf1 Hf2].
    destruct (bind_fst_panic _ (λ _,
      cfg ← load (length (store st));
      appendPatch (addContainer (Spec_Containers (Pod_Spec pod))
                     (Containers cfg) "/spec/containers");;
      appendPatch (addVolume (Spec_Volumes (Pod_Spec pod))
                     (Volumes cfg) "/spec/volumes");;
      appendPatch (updateAnnotation (Annotations (Pod_ObjectMeta pod)) ann);;
      isFirst ← gets isFirstVol;
      appendPatch (updateWorkingVolumeMounts (Spec_Containers (Pod_Spec pod))
                     ("fuse-csi-ephemeral-" +:+ name +:+ "-" +:+
                      Namespace (Pod_ObjectMeta pod))
                     bucketMount filerName isFirst);;
      set_isFirstVol false) _ _ Hf1) as [-> ->].
    split; [done|]. by rewrite <- Hst2.
Qed.

(** A valid credential whose iteration ends normally: the template was
    there, the writes into its copy succeeded, and the state is this one. *)
Lemma processSecret_valid_inv pod p ann secret st st' :
  isCandidate secret = true → missingField secret = false →
  processSecret R pod p ann secret st = (Ok tt, st') →
  let bucketMount := index (Secret_Data secret) "S3_BUCKET" in
  let filerName := filerNameOf secret in
  let name := uniqueName (filerBucketList st)
    (candidateName (R (randCalls st) 100) filerName bucketMount) in
  ∃ t cfg,
    store st !! p = Some t ∧
    specialize name (Namespace (Pod_ObjectMeta pod)) bucketMount
      (index (Secret_Data secret) "S3_URL")
      (index (Secret_Data secret) "S3_ACCESS")
      (index (Secret_Data secret) "S3_SECRET") (deepcopy_Config t) = Ok cfg ∧
    st' =
      {| store := store st ++ [cfg];
         randCalls := randCalls (named R secret st);
         patch := patch st ++
           credentialOps pod ann cfg name bucketMount filerName
             (isFirstVol st);
         filerBucketList := filerBucketList st ++ [name];
         isFirstVol := false |}.
Proof.
  intros Hc Hm Hrun. cbv zeta.
  destruct (store st !! p) as [t|] eqn:Hp;
    [|by rewrite processSecret_nil in Hrun].
  pose proof (processSecret_valid pod p ann secret st t Hc Hm Hp) as H.
  cbv zeta in H.
  destruct (specialize _ _ _ _ _ _ (deepcopy_Config t)) as [cfg|m] eqn:Hs;
    [|destruct H as [H _]; by rewrite Hrun in H].
  rewrite Hrun in H. injection H as ->. by exists t, cfg.
Qed.

(** *** The loop *)

Lemma named_store secret st : store (named R secret st) = store st.
Proof. unfold named. by destruct (drawsRandom _ _). Qed.

Lemma named_patch secret st : patch (named R secret st) = patch st.
Proof. unfold named. by destruct (drawsRandom _ _). Qed.

Lemma named_isFirstVol secret st :
  isFirstVol (named R secret st) = isFirstVol st.
Proof. unfold named. by destruct (drawsRandom _ _). Qed.

Lemma named_randCalls secret st :
  randCalls (named R secret st) =
    if drawsRandom (filerNameOf secret) (index (Secret_Data secret) "S3_BUCKET")
    then S (randCalls st) else randCalls st.
Proof. unfold named. by destruct (drawsRandom _ _). Qed.

Lemma named_filerBucketList secret st :
  filerBucketList (named R secret st) =
    filerBucketList st ++
    [uniqueName (filerBucketList st)
       (candidateName (R (randCalls st) 100) (filerNameOf secret)
          (index (Secret_Data secret) "S3_BUCKET"))].
Proof. unfold named. by destruct (drawsRandom _ _). Qed.

Lemma forSecrets_cons body secret rest st :
  forSecrets body (secret :: rest) st =
    match body secret st with
    | (Ok _, st1) => forSecrets body rest st1
    | (Panic m, st1) => (Panic m, st1)
    end.
Proof. reflexivity. Qed.

Lemma forSecrets_app body l1 l2 st :
  forSecrets body (l1 ++ l2) st =
    match forSecrets body l1 st with
    | (Ok _, st1) => forSecrets body l2 st1
    | (Panic m, st1) => (Panic m, st1)
    end.
Proof.
  revert st. induction l1 as [|s l1 IH]; intros st; [done|].
  rewrite <- app_comm_cons, !forSecrets_cons.
  destruct (body s st) as [[[]|m] st1]; [apply IH|done].
Qed.

Lemma createPatch_eq pod p ann secrets st :
  createPatch R marshal pod p ann secrets st =
    match forSecrets (processSecret R pod p ann) secrets (initState pod st) with
    | (Ok _, st') => (Ok (json_Marshal marshal (patch st')), st')
    | (Panic m, st') => (Panic m, st')
    end.
Proof.
  unfold createPatch, initState.
  unfold mbind, Action_bind, mret, Action_ret, gets, set_patch,
    set_isFirstVol, set_filerBucketList.
  cbv beta iota.
  destruct (0 <? length (Spec_Volumes (Pod_Spec pod)))%nat; reflexivity.
Qed.

(** *** Objects that exist before a call are not written to *)

Lemma keepsObjects_refl st : keepsObjects st st.
Proof. by split. Qed.

Lemma keepsObjects_trans st1 st2 st3 :
  keepsObjects st1 st2 → keepsObjects st2 st3 → keepsObjects st1 st3.
Proof.
  intros [Hl1 H1] [Hl2 H2]. split; [lia|].
  intros i Hi. rewrite H2, H1 by lia. done.
Qed.

Lemma keepsObjects_app st σ' st' :
  store st' = store st ++ σ' → keepsObjects st st'.
Proof.
  intros E. split; rewrite E; [rewrite length_app; lia|].
  intros i Hi. by apply lookup_app_l.
Qed.

Lemma processSecret_keeps pod p ann secret st :
  keepsObjects st (snd (processSecret R pod p ann secret st)) ∧
  (store st !! p = None →
   store (snd (processSecret R pod p ann secret st)) = store st).
Proof.
  destruct (isCandidate secret) eqn:Hc;
    [|rewrite processSecret_skip by done; split; [apply keepsObjects_refl|done]].
  destruct (missingField secret) eqn:Hm.
  { rewrite processSecret_invalid by done. cbn [snd].
    destruct (store st !! p) as [t|] eqn:Hp.
    - split; [by eapply keepsObjects_app|done].
    - split; [apply keepsObjects_refl|done]. }
  destruct (store st !! p) as [t|] eqn:Hp.
  - split; [|done].
    pose proof (processSecret_valid pod p ann secret st t Hc Hm Hp) as H.
    cbv zeta in H.
    destruct (specialize _ _ _ _ _ _ (deepcopy_Config t)) as [cfg|m].
    + rewrite H. by eapply keepsObjects_app.
    + destruct H as [_ (_&_&_&_&Hlen&Hlook)].
      cbn [store with_store] in Hlen, Hlook.
      split.
      * rewrite Hlen, length_app. lia.
      * intros i Hi. rewrite Hlook by lia. by apply lookup_app_l.
  - rewrite processSecret_nil by done. cbn [snd].
    split; [|intros _; apply named_store].
    apply keepsObjects_app with (σ' := []).
    by rewrite named_store, app_nil_r.
Qed.

Lemma forSecrets_keeps pod p ann secrets : ∀ st,
  keepsObjects st (snd (forSecrets (processSecret R pod p ann) secrets st)) ∧
  (store st !! p = None →
   store (snd (forSecrets (processSecret R pod p ann) secrets st)) = store st).
Proof.
  induction secrets as [|s l IH]; intros st.
  { split; [apply keepsObjects_refl|done]. }
  rewrite forSecrets_cons.
  destruct (processSecret_keeps pod p ann s st) as [Hk Hn].
  destruct (processSecret R pod p ann s st) as [[[]|m] st1]; cbn [snd] in *;
    [|done].
  destruct (IH st1) as [Hk1 Hn1]. split.
  - by eapply keepsObjects_trans.
  - intros Hp. rewrite Hn1; [by apply Hn|]. by rewrite (Hn Hp).
Qed.

Lemma createPatch_keeps pod p ann secrets st :
  keepsObjects st (snd (createPatch R marshal pod p ann secrets st)) ∧
  (store st !! p = None →
   store (snd (createPatch R marshal pod p ann secrets st)) = store st).
Proof.
  rewrite createPatch_eq.
  destruct (forSecrets_keeps pod p ann secrets (initState pod st)) as [Hk Hn].
  destruct (forSecrets _ _ _) as [[[]|m] st1]; cbn [snd] in *; done.
Qed.

(** *** The loop does not depend on what else the store holds *)

Lemma sameLocals_refl p st : sameLocals p st st.
Proof. by repeat split. Qed.

Lemma sameLocals_trans p st1 st2 st3 :
  sameLocals p st1 st2 → sameLocals p st2 st3 → sameLocals p st1 st3.
Proof.
  intros (?&?&?&?&?) (?&?&?&?&?). repeat split; congruence.
Qed.

Lemma sameLocals_named p secret st1 st2 :
  sameLocals p st1 st2 →
  sameLocals p (named R secret st1) (named R secret st2).
Proof.
  intros (Hr&Hp&Hf&Hi&Hs).
  unfold sameLocals.
  rewrite !named_randCalls, !named_patch, !named_filerBucketList,
    !named_isFirstVol, !named_store.
  by rewrite Hr, Hp, Hf, Hi, Hs.
Qed.

Lemma processSecret_sim pod p ann secret st1 st2 :
  sameLocals p st1 st2 →
  fst (processSecret R pod p ann secret st1) =
    fst (processSecret R pod p ann secret st2) ∧
  sameLocals p (snd (processSecret R pod p ann secret st1))
    (snd (processSecret R pod p ann secret st2)).
Proof.
  intros Hsame. pose proof Hsame as (Hr&Hp&Hf&Hi&Hs).
  destruct (isCandidate secret) eqn:Hc;
    [|by rewrite !processSecret_skip by done].
  destruct (missingField secret) eqn:Hm.
  { rewrite !processSecret_invalid by done. cbn [fst snd]. split; [done|].
    rewrite <- Hs. destruct (store st1 !! p) as [t|] eqn:E1; [|done].
    pose proof (lookup_lt_Some _ _ _ E1) as L1.
    assert (p < length (store st2)) as L2
      by (eapply lookup_lt_Some; by rewrite <- Hs).
    repeat split; try done. cbn [store with_store].
    rewrite !lookup_app_l by done. congruence. }
  destruct (store st1 !! p) as [t|] eqn:E1.
  - assert (store st2 !! p = Some t) as E2 by congruence.
    pose proof (processSecret_valid pod p ann secret st1 t Hc Hm E1) as H1.
    pose proof (processSecret_valid pod p ann secret st2 t Hc Hm E2) as H2.
    cbv zeta in H1, H2. rewrite Hf, Hr in H1.
    pose proof (lookup_lt_Some _ _ _ E1) as L1.
    pose proof (lookup_lt_Some _ _ _ E2) as L2.
    destruct (specialize _ _ _ _ _ _ (deepcopy_Config t)) as [cfg|m].
    + rewrite H1, H2. cbn [fst snd]. split; [done|].
      repeat split; cbn [randCalls patch filerBucketList isFirstVol store];
        rewrite ?named_randCalls, ?Hr, ?Hp, ?Hi, ?lookup_app_l by done;
        congruence.
    + destruct H1 as [-> (A1&A2&A3&A4&A5&A6)].
      destruct H2 as [-> (B1&B2&B3&B4&B5&B6)].
      split; [done|].
      cbn [randCalls patch filerBucketList isFirstVol store with_store]
        in A1, A2, A3, A4, A6, B1, B2, B3, B4, B6.
      pose proof (sameLocals_named p secret st1 st2 Hsame) as (N1&N2&N3&N4&_).
      repeat split; try congruence.
      rewrite A6, B6 by lia. rewrite !lookup_app_l by done. congruence.
  - assert (store st2 !! p = None) as E2 by congruence.
    rewrite !processSecret_nil by done. cbn [fst snd].
    split; [done|]. by apply sameLocals_named.
Qed.

Lemma forSecrets_sim pod p ann secrets : ∀ st1 st2,
  sameLocals p st1 st2 →
  fst (forSecrets (processSecret R pod p ann) secrets st1) =
    fst (forSecrets (processSecret R pod p ann) secrets st2) ∧
  sameLocals p (snd (forSecrets (processSecret R pod p ann) secrets st1))
    (snd (forSecrets (processSecret R pod p ann) secrets st2)).
Proof.
  induction secrets as [|s l IH]; intros st1 st2 Hsame; [done|].
  rewrite !forSecrets_cons.
  destruct (processSecret_sim pod p ann s st1 st2 Hsame) as [Ho Hl].
  destruct (processSecret R pod p ann s st1) as [[[]|m1] st1'],
    (processSecret R pod p ann s st2) as [[[]|m2] st2'];
    cbn [fst snd] in *; try done.
  by apply IH.
Qed.

(** An iteration that is passed over leaves the loop variables alone. *)
Lemma processSecret_skipped pod p ann secret st :
  skipped secret →
  ∃ st', processSecret R pod p ann secret st = (Ok tt, st') ∧
         sameLocals p st' st.
Proof.
  intros Hskip. destruct (isCandidate secret) eqn:Hc.
  - destruct Hskip as [?|Hm]; [congruence|].
    rewrite processSecret_invalid by done. eexists; split; [done|].
    destruct (store st !! p) as [t|] eqn:E; [|apply sameLocals_refl].
    repeat split. cbn [store with_store].
    rewrite lookup_app_l by (by eapply lookup_lt_Some). done.
  - rewrite processSecret_skip by done. eexists; split; [done|].
    apply sameLocals_refl.
Qed.

Lemma forSecrets_skipped pod p ann secrets : ∀ st,
  Forall skipped secrets →
  ∃ st', forSecrets (processSecret R pod p ann) secrets st = (Ok tt, st') ∧
         sameLocals p st' st.
Proof.
  induction secrets as [|s l IH]; intros st Hall.
  { eexists; split; [done|]. apply sameLocals_refl. }
  apply Forall_cons in Hall as [Hs Hl]. rewrite forSecrets_cons.
  destruct (processSecret_skipped pod p ann s st Hs) as (st1 & -> & H1).
  destruct (IH st1 Hl) as (st2 & -> & H2).
  eexists; split; [done|]. by eapply sameLocals_trans.
Qed.

(** Dropping a credential that is passed over changes neither the outcome
    of the loop nor its variables. *)
Lemma forSecrets_drop_skipped pod p ann before secret after st :
  skipped secret →
  let r1 := forSecrets (processSecret R pod p ann)
              (before ++ secret :: after) st in
  let r2 := forSecrets (processSecret R pod p ann) (before ++ after) st in
  fst r1 = fst r2 ∧ sameLocals p (snd r1) (snd r2).
Proof.
  intros Hskip. cbv zeta. rewrite !forSecrets_app.
  destruct (forSecrets _ before st) as [[[]|m] st1];
    [|split; [done|apply sameLocals_refl]].
  rewrite forSecrets_cons.
  destruct (processSecret_skipped pod p ann secret st1 Hskip) as (st2 & -> & H).
  by apply forSecrets_sim.
Qed.

End WebhookFacts.

(** *** What the writes into the copy establish *)

(** The writes succeed exactly on a copy that has a first container with
    three environment entries and a volume mount, and two volumes of which
    the second is a CSI volume with an allocated attribute map; this lemma
    gives the object they leave behind. *)
Lemma specialize_inv name ns b u a s t cfg :
  specialize name ns b u a s t = Ok cfg →
  ∃ c cs e0 e1 e2 es m ms v0 v1 vs csi attrs,
    t = {| Containers := c :: cs; Volumes := v0 :: v1 :: vs |} ∧
    Container_Env c = e0 :: e1 :: e2 :: es ∧
    Container_VolumeMounts c = m :: ms ∧
    Volume_CSI v1 = Some csi ∧
    CSI_VolumeAttributes csi = Some attrs ∧
    cfg =
      {| Containers :=
           {| Container_Name := name;
              Container_Args :=
                ["-c";
                 "/goofys --cheap --endpoint " +:+ u +:+
                 " --http-timeout 1500s --dir-mode 0777 --file-mode 0777  --debug_fuse --debug_s3 -o allow_other -f " +:+
                 b +:+ "/ /tmp; echo sleeping...; sleep infinity"];
              Container_Env :=
                {| EnvVar_Name := EnvVar_Name e0;
                   EnvVar_Value :=
                     "fusermount3-proxy-" +:+ name +:+ "-" +:+ ns +:+
                     "/fuse-csi-ephemeral.sock" |}
                :: {| EnvVar_Name := EnvVar_Name e1; EnvVar_Value := a |}
                :: {| EnvVar_Name := EnvVar_Name e2; EnvVar_Value := s |}
                :: es;
              Container_VolumeMounts :=
                {| VolumeMount_Name :=
                     "fuse-fd-passing-" +:+ name +:+ "-" +:+ ns;
                   VolumeMount_MountPath :=
                     "fusermount3-proxy-" +:+ name +:+ "-" +:+ ns |}
                :: ms |}
           :: cs;
         Volumes :=
           {| Volume_Name := "fuse-fd-passing-" +:+ name +:+ "-" +:+ ns;
              Volume_CSI := Volume_CSI v0 |}
           :: {| Volume_Name := "fuse-csi-ephemeral-" +:+ name +:+ "-" +:+ ns;
                 Volume_CSI :=
                   Some {| CSI_Driver := CSI_Driver csi;
                           CSI_VolumeAttributes :=
                             Some (<[ "fdPassingEmptyDirName" :=
                                      "fuse-fd-passing-" +:+ name +:+ "-" +:+ ns ]>
                                   attrs) |} |}
           :: vs |}.
Proof.
  destruct t as [cs vs]. unfold specialize. cbv zeta.
  destruct cs as [|[cn ca ce cm] cs]; [discriminate|].
  destruct ce as [|e0 [|e1 [|e2 es]]]; try discriminate.
  destruct cm as [|m ms]; [discriminate|].
  destruct vs as [|v0 [|[n1 [[d [attrs|]]|]] vs]]; try discriminate.
  intros H. cbn in H. injection H as <-.
  do 13 eexists. repeat split.
Qed.

Lemma specialize_shape name ns b u a s t :
  templateShape t → ∃ cfg, specialize name ns b u a s t = Ok cfg.
Proof.
  intros (c&cs&e0&e1&e2&es&m&ms&v0&v1&vs&csi&attrs&Hc&He&Hm&Hv&Hcsi&Ha).
  destruct t as [tc tv], c as [cn ca ce cm], v1 as [n1 vc], csi as [d va].
  cbn in Hc, He, Hm, Hv, Hcsi, Ha. subst. eexists. cbn. reflexivity.
Qed.

(** The copy that [deepcopy.Anything] makes of a template of the expected
    shape can be filled in. *)
Lemma specialize_copy_shape name ns b u a s t :
  templateShape t →
  ∃ cfg, specialize name ns b u a s (deepcopy_Config t) = Ok cfg.
Proof.
  intros (c&cs&e0&e1&e2&es&m&ms&v0&v1&vs&csi&attrs&Hc&He&Hm&Hv&Hcsi&Ha).
  destruct t as [tc tv], c as [cn ca ce cm], v1 as [n1 vc], csi as [d va].
  cbn in Hc, He, Hm, Hv, Hcsi, Ha. subst. eexists. cbn. reflexivity.
Qed.

Lemma specialize_couplings name ns b u a s t cfg :
  specialize name ns b u a s t = Ok cfg → sameNameCouplings name ns cfg.
Proof.
  intros H.
  apply specialize_inv in H
    as (c&cs&e0&e1&e2&es&m&ms&v0&v1&vs&csi&attrs&_&_&_&_&_&->).
  unfold sameNameCouplings. do 6 eexists.
  repeat split; try reflexivity. cbn. apply lookup_insert_eq.
Qed.

(** ** The claims *)

Section Claims.

Variable R : nat → nat → nat.
Variable marshal : patchOperation → string.

(** C9.  [createPatch] leaves the template it is given as it was: after the
    call, whatever its outcome and however many credentials it went
    through, the pointer [sidecarConfigTemplate] leads to the same object as
    before, and so does every other pointer that existed before the call.
    The writes of each credential go to the copy made for it. *)
Theorem createPatch_keeps_template (pod : Pod) (sidecarConfigTemplate : nat)
  (annotations : list (string * string)) (secretList : list Secret)
  (st : LoopState) :
  let st' := snd (createPatch R marshal pod sidecarConfigTemplate annotations
                    secretList st) in
  store st' !! sidecarConfigTemplate = store st !! sidecarConfigTemplate ∧
  keepsObjects st st'.
Proof.
  cbv zeta.
  destruct (createPatch_keeps R marshal pod sidecarConfigTemplate annotations
              secretList st) as [Hk Hn].
  split; [|done].
  destruct (store st !! sidecarConfigTemplate) as [t|] eqn:Hp.
  - destruct Hk as [_ Hk]. rewrite Hk; [done|]. by eapply lookup_lt_Some.
  - by rewrite Hn.
Qed.

(** C10.  A secret whose name does not contain [filer-conn-secret] is passed
    over whatever its data: its iteration changes nothing at all, and the
    call returns what it returns without that secret in the listing. *)
Theorem non_candidate_ignored (pod : Pod) (sidecarConfigTemplate : nat)
  (annotations : list (string * string)) (secret : Secret) :
  Contains (Secret_Name secret) "filer-conn-secret" = false →
  (∀ st, processSecret R pod sidecarConfigTemplate annotations secret st =
           (Ok tt, st)) ∧
  (∀ before after st,
     createPatch R marshal pod sidecarConfigTemplate annotations
       (before ++ secret :: after) st =
     createPatch R marshal pod sidecarConfigTemplate annotations
       (before ++ after) st).
Proof.
  intros Hc. split; [intros st; by apply processSecret_skip|].
  intros before after st. rewrite !createPatch_eq, !forSecrets_app.
  destruct (forSecrets _ before _) as [[[]|m] st1]; [|done].
  by rewrite forSecrets_cons, processSecret_skip.
Qed.

(** C8.  A credential with an empty mount path, endpoint, access key or
    secret key is passed over: its iteration ends normally, adds nothing to
    the patch and no name to [filerBucketList], leaves the first-volume flag
    and the template alone; and the call returns the same bytes, with the
    same patch and the same names, as without that credential. *)
Theorem invalid_credential_skipped (pod : Pod) (sidecarConfigTemplate : nat)
  (annotations : list (string * string)) (secret : Secret) :
  (index (Secret_Data secret) "S3_BUCKET" = "" ∨
   index (Secret_Data secret) "S3_URL" = "" ∨
   index (Secret_Data secret) "S3_ACCESS" = "" ∨
   index (Secret_Data secret) "S3_SECRET" = "") →
  (∀ st, ∃ st',
     processSecret R pod sidecarConfigTemplate annotations secret st =
       (Ok tt, st') ∧
     patch st' = patch st ∧
     filerBucketList st' = filerBucketList st ∧
     isFirstVol st' = isFirstVol st ∧
     store st' !! sidecarConfigTemplate = store st !! sidecarConfigTemplate) ∧
  (∀ before after st,
     let r1 := createPatch R marshal pod sidecarConfigTemplate annotations
                 (before ++ secret :: after) st in
     let r2 := createPatch R marshal pod sidecarConfigTemplate annotations
                 (before ++ after) st in
     fst r1 = fst r2 ∧ patch (snd r1) = patch (snd r2) ∧
     filerBucketList (snd r1) = filerBucketList (snd r2)).
Proof.
  intros Hempty.
  assert (skipped secret) as Hskip.
  { right. unfold missingField. rewrite !orb_true_iff, !String.eqb_eq. tauto. }
  split.
  - intros st.
    destruct (processSecret_skipped R pod sidecarConfigTemplate annotations
                secret st Hskip) as (st' & E & (_&?&?&?&?)).
    by exists st'.
  - intros before after st. cbv zeta. rewrite !createPatch_eq.
    destruct (forSecrets_drop_skipped R pod sidecarConfigTemplate annotations
                before secret after (initState pod st) Hskip)
      as [Hf (_&Hp&Hn&_)].
    cbv zeta in Hf, Hp, Hn.
    destruct (forSecrets _ (before ++ secret :: after) _) as [[[]|m1] s1],
      (forSecrets _ (before ++ after) _) as [[[]|m2] s2];
      cbn [fst snd] in *; try discriminate; simplify_eq; rewrite ?Hp; auto.
Qed.

(** C6, as the code has it.  When every credential of the listing is passed
    over, an empty listing included, [createPatch] returns without error, no
    operation has been added to the patch, and the bytes returned are the
    JSON text [null], which is how a slice that was never allocated is
    encoded; they are not the text of an empty array. *)
Theorem createPatch_nothing_valid (pod : Pod) (sidecarConfigTemplate : nat)
  (annotations : list (string * string)) (secretList : list Secret)
  (st : LoopState) :
  Forall skipped secretList →
  ∃ st', createPatch R marshal pod sidecarConfigTemplate annotations
           secretList st = (Ok "null", st') ∧
         patch st' = [].
Proof.
  intros Hall. rewrite createPatch_eq.
  destruct (forSecrets_skipped R pod sidecarConfigTemplate annotations
              secretList (initState pod st) Hall) as (st' & -> & (_&Hp&_)).
  exists st'. cbn [patch initState] in Hp. by rewrite Hp.
Qed.

(** *** With a template of the expected shape nothing panics *)

Lemma processSecret_total pod p ann secret st tmpl :
  store st !! p = Some tmpl → templateShape tmpl →
  ∃ st', processSecret R pod p ann secret st = (Ok tt, st') ∧
         store st' !! p = Some tmpl.
Proof.
  intros Hp Hshape.
  assert (∀ st', processSecret R pod p ann secret st = (Ok tt, st') →
                 store st' !! p = Some tmpl) as Hkeep.
  { intros st' E.
    destruct (processSecret_keeps R pod p ann secret st) as [[_ Hk] _].
    rewrite E in Hk. cbn [snd] in Hk. rewrite Hk; [done|].
    by eapply lookup_lt_Some. }
  destruct (isCandidate secret) eqn:Hc.
  - destruct (missingField secret) eqn:Hm.
    + eexists. split; [|apply Hkeep]; by apply processSecret_invalid.
    + pose proof (processSecret_valid R pod p ann secret st tmpl Hc Hm Hp) as H.
      cbv zeta in H.
      destruct (specialize_copy_shape
                  (uniqueName (filerBucketList st)
                     (candidateName (R (randCalls st) 100) (filerNameOf secret)
                        (index (Secret_Data secret) "S3_BUCKET")))
                  (Namespace (Pod_ObjectMeta pod))
                  (index (Secret_Data secret) "S3_BUCKET")
                  (index (Secret_Data secret) "S3_URL")
                  (index (Secret_Data secret) "S3_ACCESS")
                  (index (Secret_Data secret) "S3_SECRET") tmpl Hshape)
        as [cfg Hcfg].
      rewrite Hcfg in H. eexists. split; [exact H|by apply Hkeep].
  - eexists. split; [|apply Hkeep]; by apply processSecret_skip.
Qed.

(** Whatever the listing, [createPatch] returns bytes and no error. *)
Lemma createPatch_total pod p ann secrets st tmpl :
  store st !! p = Some tmpl → templateShape tmpl →
  ∃ st', createPatch R marshal pod p ann secrets st =
           (Ok (json_Marshal marshal (patch st')), st').
Proof.
  intros Hp Hshape. rewrite createPatch_eq.
  assert (∀ st0, store st0 !! p = Some tmpl →
            ∃ st', forSecrets (processSecret R pod p ann) secrets st0 =
                     (Ok tt, st')) as Hloop.
  { induction secrets as [|s l IH]; intros st0 H0; [by eexists|].
    rewrite forSecrets_cons.
    destruct (processSecret_total pod p ann s st0 tmpl H0 Hshape)
      as (st1 & -> & H1).
    by apply IH. }
  destruct (Hloop (initState pod st) Hp) as (st' & ->). by exists st'.
Qed.

(** C2.  Every sidecar that an iteration generates has the two couplings by
    name: the first volume mount of its container and its first volume both
    carry the name [fuse-fd-passing-<name>-<namespace>], and the attribute
    [fdPassingEmptyDirName] of its second volume is that same name.  The
    sidecar is the object written at the fresh address, its name is the one
    just recorded, and it is the object whose containers and volumes are
    appended to the patch. *)
Theorem sidecar_name_couplings (pod : Pod) (sidecarConfigTemplate : nat)
  (annotations : list (string * string)) (secret : Secret)
  (st st' : LoopState) :
  Contains (Secret_Name secret) "filer-conn-secret" = true →
  missingField secret = false →
  processSecret R pod sidecarConfigTemplate annotations secret st =
    (Ok tt, st') →
  ∃ nameToken cfg,
    last (filerBucketList st') = Some nameToken ∧
    store st' !! length (store st) = Some cfg ∧
    patch st' =
      patch st ++
      credentialOps pod annotations cfg nameToken
        (index (Secret_Data secret) "S3_BUCKET") (filerNameOf secret)
        (isFirstVol st) ∧
    sameNameCouplings nameToken (Namespace (Pod_ObjectMeta pod)) cfg.
Proof.
  intros Hc Hm Hrun.
  destruct (processSecret_valid_inv R pod sidecarConfigTemplate annotations
              secret st st' Hc Hm Hrun) as (t & cfg & Hp & Hs & ->).
  eexists _, cfg. cbn [filerBucketList store patch].
  split; [apply last_snoc|].
  split; [by rewrite lookup_app_r, Nat.sub_diag|].
  split; [done|]. by eapply specialize_couplings.
Qed.

Lemma forSecrets_flag pod p ann secrets : ∀ st st1,
  forSecrets (processSecret R pod p ann) secrets st = (Ok tt, st1) →
  isFirstVol st1 = true →
  isFirstVol st = true ∧ Forall skipped secrets.
Proof.
  induction secrets as [|s l IH]; intros st st1 Hrun Hflag.
  { injection Hrun as ->. by split. }
  rewrite forSecrets_cons in Hrun.
  destruct (processSecret R pod p ann s st) as [[[]|m] st2] eqn:Hs; [|done].
  destruct (IH st2 st1 Hrun Hflag) as [Hf2 Hl].
  assert (skipped s) as Hskip.
  { unfold skipped. destruct (isCandidate s) eqn:Hc; [|by left].
    destruct (missingField s) eqn:Hm; [by right|]. exfalso.
    destruct (processSecret_valid_inv R pod p ann s st st2 Hc Hm Hs)
      as (t & cfg & _ & _ & ->).
    done. }
  split; [|by constructor].
  destruct (processSecret_skipped R pod p ann s st Hskip)
    as (st2' & E & (_&_&_&Hi&_)).
  rewrite Hs in E. injection E as <-. congruence.
Qed.

Lemma updateWorkingVolumeMounts_ops containers volumeName bucketMount
  filerName isFirst :
  Forall (mountOpFor isFirst (workingVolumeMount volumeName bucketMount filerName))
    (updateWorkingVolumeMounts containers volumeName bucketMount filerName
       isFirst).
Proof.
  unfold updateWorkingVolumeMounts. cbv zeta.
  induction containers as [|c cs IH]; [constructor|].
  cbn [flat_map]. apply Forall_app. split; [|done].
  induction (Container_Env c) as [|e es IHe]; [constructor|].
  cbn [flat_map]. apply Forall_app. split; [|done].
  destruct (String.eqb _ _); [|constructor].
  destruct isFirst; by repeat constructor.
Qed.

(** The flag as the code has it.  [isFirstVol] starts out true exactly
    when the pod has no volume of its own; the mounts of its first
    container are not looked at.  It is still true when the loop reaches a
    credential only if the pod has no volume and every credential before
    that one was passed over; a credential that is processed hands the
    current flag to [updateWorkingVolumeMounts] and then clears it.  Every
    operation the builder emits is an [add]: of a one-element list at
    [/spec/containers/0/volumeMounts] when the flag is true, of the mount
    itself at [/spec/containers/0/volumeMounts/-] otherwise. *)
Theorem isFirst_flag (pod : Pod) (sidecarConfigTemplate : nat)
  (annotations : list (string * string)) :
  (∀ st, isFirstVol (initState pod st) = true ↔
         Spec_Volumes (Pod_Spec pod) = []) ∧
  (∀ secrets st st1,
     forSecrets (processSecret R pod sidecarConfigTemplate annotations)
       secrets (initState pod st) = (Ok tt, st1) →
     isFirstVol st1 = true →
     Spec_Volumes (Pod_Spec pod) = [] ∧ Forall skipped secrets) ∧
  (∀ secret st st',
     isCandidate secret = true → missingField secret = false →
     processSecret R pod sidecarConfigTemplate annotations secret st =
       (Ok tt, st') →
     isFirstVol st' = false ∧
     ∃ nameToken cfg,
       last (filerBucketList st') = Some nameToken ∧
       store st' !! length (store st) = Some cfg ∧
       patch st' =
         patch st ++
         credentialOps pod annotations cfg nameToken
           (index (Secret_Data secret) "S3_BUCKET") (filerNameOf secret)
           (isFirstVol st)) ∧
  (∀ containers volumeName bucketMount filerName isFirst,
     Forall (mountOpFor isFirst
               (workingVolumeMount volumeName bucketMount filerName))
       (updateWorkingVolumeMounts containers volumeName bucketMount filerName
          isFirst)).
Proof.
  assert (∀ st, isFirstVol (initState pod st) = true ↔
                Spec_Volumes (Pod_Spec pod) = []) as Hinit.
  { intros st. cbn [isFirstVol initState].
    destruct (Spec_Volumes (Pod_Spec pod)); by cbn. }
  split; [done|]. split; [|split].
  - intros secrets st st1 Hrun Hflag.
    destruct (forSecrets_flag pod sidecarConfigTemplate annotations secrets
                _ _ Hrun Hflag) as [H0 Hall].
    split; [by eapply Hinit|done].
  - intros secret st st' Hc Hm Hrun.
    destruct (processSecret_valid_inv R pod sidecarConfigTemplate annotations
                secret st st' Hc Hm Hrun) as (t & cfg & _ & _ & ->).
    split; [done|]. eexists _, cfg. cbn [filerBucketList store patch].
    split; [apply last_snoc|].
    split; [by rewrite lookup_app_r, Nat.sub_diag|done].
  - apply updateWorkingVolumeMounts_ops.
Qed.

Lemma candidateName_scenario r :
  candidateName r "acct" "data/project" = "acct-data-proje".
Proof. reflexivity. Qed.

(** C5, as the code has it.  For a pod that the policy lets through, a
    template of the expected shape and one complete credential of filer
    [acct] with mount path [data/project], [mutate] allows the pod with a
    patch whose operations are those of one sidecar.  The container of that
    sidecar is named [acct-data-proje]: the deepest directory, cut to five
    bytes, is part of the name.  Its first environment value is
    [fusermount3-proxy-acct-data-proje-<namespace>/fuse-csi-ephemeral.sock]
    and its volumes are named [fuse-fd-passing-acct-data-proje-<namespace>]
    and [fuse-csi-ephemeral-acct-data-proje-<namespace>]. *)
Theorem scenario_one_credential (U : string → string) (pod : Pod)
  (sidecarConfig : nat) (tmpl : Config) (secret : Secret) (st : LoopState) :
  mutationRequired U (Pod_ObjectMeta pod) = true →
  store st !! sidecarConfig = Some tmpl →
  templateShape tmpl →
  isCandidate secret = true →
  filerNameOf secret = "acct" →
  index (Secret_Data secret) "S3_BUCKET" = "data/project" →
  missingField secret = false →
  let namespace := Namespace (Pod_ObjectMeta pod) in
  ∃ bytes st' c cs env0 envs v0 v1 vs,
    mutate R marshal U sidecarConfig pod [secret] st =
      (Ok {| Allowed := true; Patch := Some bytes;
             PatchType := Some "JSONPatch" |}, st') ∧
    bytes = json_Marshal marshal (patch st') ∧
    patch st' =
      credentialOps pod [(admissionWebhookAnnotationStatusKey, "injected")]
        {| Containers := c :: cs; Volumes := v0 :: v1 :: vs |}
        "acct-data-proje" "data/project" "acct"
        (negb (0 <? length (Spec_Volumes (Pod_Spec pod)))%nat) ∧
    filerBucketList st' = ["acct-data-proje"] ∧
    Container_Name c = "acct-data-proje" ∧
    Container_Env c = env0 :: envs ∧
    EnvVar_Value env0 =
      "fusermount3-proxy-acct-data-proje-" +:+ namespace +:+
      "/fuse-csi-ephemeral.sock" ∧
    Volume_Name v0 = "fuse-fd-passing-acct-data-proje-" +:+ namespace ∧
    Volume_Name v1 = "fuse-csi-ephemeral-acct-data-proje-" +:+ namespace.
Proof.
  intros Hmut Hp Hshape Hc Hfiler Hbucket Hm namespace.
  unfold mutate. rewrite Hmut. cbn [negb].
  pose proof (processSecret_valid R pod sidecarConfig
                [(admissionWebhookAnnotationStatusKey, "injected")]
                secret (initState pod st) tmpl Hc Hm Hp) as H.
  cbv zeta in H. rewrite Hfiler, Hbucket in H.
  cbn [filerBucketList initState] in H.
  rewrite candidateName_scenario in H.
  change (uniqueName [] "acct-data-proje") with "acct-data-proje" in H.
  destruct (specialize_copy_shape "acct-data-proje" namespace "data/project"
              (index (Secret_Data secret) "S3_URL")
              (index (Secret_Data secret) "S3_ACCESS")
              (index (Secret_Data secret) "S3_SECRET") tmpl Hshape)
    as [cfg Hcfg].
  fold namespace in H. rewrite Hcfg in H.
  apply specialize_inv in Hcfg
    as (c&cs&e0&e1&e2&es&m&ms&v0&v1&vs&csi&attrs&_&_&_&_&_&->).
  rewrite (bind_eq _ _ _ _ _
             (eq_trans (createPatch_eq R marshal pod sidecarConfig _ [secret] st)
                ltac:(rewrite forSecrets_cons, H; reflexivity))).
  do 9 eexists.
  split; [reflexivity|]. cbn [patch filerBucketList].
  split; [reflexivity|].
  split; [reflexivity|].
  split; [reflexivity|].
  cbn. by repeat split.
Qed.

End Claims.

(** The secret [otherSecret] has all four fields and is ignored. *)
Lemma non_candidate_ignored_witness :
  processSecret exampleRand examplePod 0 exampleAnnotations otherSecret
    exampleState = (Ok tt, exampleState) ∧
  createPatch exampleRand exampleMarshal examplePod 0 exampleAnnotations
    ([filerSecret "acct-filer-conn-secret" "data"] ++ otherSecret :: []) 
    exampleState =
  createPatch exampleRand exampleMarshal examplePod 0 exampleAnnotations
    ([filerSecret "acct-filer-conn-secret" "data"] ++ []) exampleState.
Proof.
  assert (Contains (Secret_Name otherSecret) "filer-conn-secret" = false)
    as Hc by (vm_compute; reflexivity).
  destruct (non_candidate_ignored exampleRand exampleMarshal examplePod 0
              exampleAnnotations otherSecret Hc) as [H1 H2].
  split; [apply H1|apply H2].
Defined.

Lemma invalid_credential_skipped_witness :
  (∃ st', processSecret exampleRand examplePod 0 exampleAnnotations
            incompleteSecret exampleState = (Ok tt, st') ∧
          patch st' = patch exampleState ∧
          filerBucketList st' = filerBucketList exampleState) ∧
  fst (createPatch exampleRand exampleMarshal examplePod 0 exampleAnnotations
         ([] ++ incompleteSecret :: [filerSecret "acct-filer-conn-secret" "data"])
         exampleState) =
  fst (createPatch exampleRand exampleMarshal examplePod 0 exampleAnnotations
         ([] ++ [filerSecret "acct-filer-conn-secret" "data"]) exampleState).
Proof.
  assert (index (Secret_Data incompleteSecret) "S3_ACCESS" = "")
    as Hempty by (vm_compute; reflexivity).
  destruct (invalid_credential_skipped exampleRand exampleMarshal examplePod 0
              exampleAnnotations incompleteSecret
              (or_intror (or_intror (or_introl Hempty)))) as [H1 H2].
  split.
  - destruct (H1 exampleState) as (st' & E & Hp & Hn & _). by exists st'.
  - apply (H2 [] [filerSecret "acct-filer-conn-secret" "data"] exampleState).
Defined.

Lemma createPatch_nothing_valid_witness :
  ∃ st', createPatch exampleRand exampleMarshal examplePod 0
           exampleAnnotations [otherSecret; incompleteSecret] exampleState =
           (Ok "null", st') ∧
         patch st' = [].
Proof.
  apply createPatch_nothing_valid.
  constructor; [left; vm_compute; reflexivity|].
  constructor; [right; vm_compute; reflexivity|]. constructor.
Defined.

(** C6 as the specification words it fails on the empty listing: the bytes
    are [null], not an empty array. *)
Lemma createPatch_empty_listing_not_array :
  fst (createPatch exampleRand exampleMarshal examplePod 0 exampleAnnotations
         [] exampleState) = Ok "null" ∧
  fst (createPatch exampleRand exampleMarshal examplePod 0 exampleAnnotations
         [] exampleState) ≠ Ok "[]".
Proof. split; [reflexivity|]. vm_compute. discriminate. Qed.

Lemma sidecar_name_couplings_witness :
  ∃ nameToken cfg,
    sameNameCouplings nameToken "ns" cfg ∧
    last (filerBucketList
            (snd (processSecret exampleRand examplePod 0 exampleAnnotations
                    (filerSecret "acct-filer-conn-secret" "data/project")
                    exampleState))) = Some nameToken.
Proof.
  set (r := processSecret exampleRand examplePod 0 exampleAnnotations
              (filerSecret "acct-filer-conn-secret" "data/project")
              exampleState).
  assert (r = (Ok tt, snd r)) as Hrun by (vm_compute; reflexivity).
  assert (Contains
            (Secret_Name (filerSecret "acct-filer-conn-secret" "data/project"))
            "filer-conn-secret" = true) as Hc by (vm_compute; reflexivity).
  assert (missingField (filerSecret "acct-filer-conn-secret" "data/project")
          = false) as Hm by (vm_compute; reflexivity).
  destruct (sidecar_name_couplings exampleRand examplePod 0
              exampleAnnotations
              (filerSecret "acct-filer-conn-secret" "data/project")
              exampleState (snd r) Hc Hm Hrun)
    as (nameToken & cfg & Hlast & _ & _ & Hcoupled).
  exists nameToken, cfg. split; [exact Hcoupled|exact Hlast].
Defined.

Lemma scenario_one_credential_witness :
  ∃ bytes st',
    mutate exampleRand exampleMarshal exampleLower 0 examplePod
      [filerSecret "acct-filer-conn-secret" "data/project"] exampleState =
      (Ok {| Allowed := true; Patch := Some bytes;
             PatchType := Some "JSONPatch" |}, st') ∧
    filerBucketList st' = ["acct-data-proje"].
Proof.
  assert (mutationRequired exampleLower (Pod_ObjectMeta examplePod) = true)
    as Hmut by (vm_compute; reflexivity).
  assert (store exampleState !! 0 = Some exampleTemplate)
    as Hp by reflexivity.
  assert (templateShape exampleTemplate) as Hshape.
  { unfold templateShape, exampleTemplate. do 13 eexists.
    repeat split; reflexivity. }
  assert (isCandidate (filerSecret "acct-filer-conn-secret" "data/project")
          = true) as Hc by (vm_compute; reflexivity).
  assert (filerNameOf (filerSecret "acct-filer-conn-secret" "data/project")
          = "acct") as Hf by (vm_compute; reflexivity).
  assert (index (Secret_Data
                   (filerSecret "acct-filer-conn-secret" "data/project"))
            "S3_BUCKET" = "data/project") as Hb by (vm_compute; reflexivity).
  assert (missingField (filerSecret "acct-filer-conn-secret" "data/project")
          = false) as Hm by (vm_compute; reflexivity).
  destruct (scenario_one_credential exampleRand exampleMarshal exampleLower
              examplePod 0 exampleTemplate
              (filerSecret "acct-filer-conn-secret" "data/project")
              exampleState Hmut Hp Hshape Hc Hf Hb Hm)
    as (bytes & st' & c & cs & env0 & envs & v0 & v1 & vs & Hrun & _ & _
        & Hnames & _).
  exists bytes, st'. split; [exact Hrun|exact Hnames].
Defined.

(** C5 as the specification words it fails: in the scenario the container
    is not named [acct-data]. *)
Lemma scenario_container_is_not_acct_data :
  let ops :=
    patch (snd (mutate exampleRand exampleMarshal exampleLower 0 examplePod
                  [filerSecret "acct-filer-conn-secret" "data/project"]
                  exampleState)) in
  ∃ c v0 v1,
    ops !! 0 = Some {| Op := "add"; Path := "/spec/containers/-";
                       Value := VContainer c |} ∧
    ops !! 1 = Some {| Op := "add"; Path := "/spec/volumes";
                       Value := VVolumes [v0] |} ∧
    ops !! 2 = Some {| Op := "add"; Path := "/spec/volumes/-";
                       Value := VVolume v1 |} ∧
    Container_Name c = "acct-data-proje" ∧
    Container_Name c ≠ "acct-data" ∧
    Volume_Name v0 = "fuse-fd-passing-acct-data-proje-ns" ∧
    Contains (Volume_Name v0) "fuse-fd-passing-acct-data-ns" = false ∧
    Volume_Name v1 = "fuse-csi-ephemeral-acct-data-proje-ns" ∧
    Contains (Volume_Name v1) "fuse-csi-ephemeral-acct-data-ns" = false.
Proof.
  cbv zeta. do 3 eexists.
  split; [vm_compute; reflexivity|].
  split; [vm_compute; reflexivity|].
  split; [vm_compute; reflexivity|].
  repeat split; try reflexivity. discriminate.
Qed.

(** C7: the defect.  The flag that chooses between setting the mount list
    of the first container and appending to it is derived from the volumes
    of the pod (line 224), never from the mounts of that container, and it
    is read once per credential, not once per mount.  [mountedPod] has no
    volume, its first container already has a volume mount, and two of its
    containers carry [NB_PREFIX]: the flag is true for the first credential,
    and the builder emits two operations that each set
    [/spec/containers/0/volumeMounts] to a one-element list, the form that
    the comment of line 189 keeps for the first value, and none that
    appends.  An [add] at a member that exists replaces its value: the
    mount that was there is not kept (against the comment of line 223), and
    of the two lists only the second remains. *)
Lemma isFirst_ignores_container_mounts :
  (∀ pod st, Spec_Volumes (Pod_Spec pod) = [] →
             isFirstVol (initState pod st) = true) ∧
  (∃ c m, Spec_Containers (Pod_Spec mountedPod) !! 0 = Some c ∧
          Container_VolumeMounts c = [m]) ∧
  (let ops :=
     patch (snd (createPatch exampleRand exampleMarshal mountedPod 0
                   exampleAnnotations
                   [filerSecret "acct-filer-conn-secret" "data"]
                   exampleState)) in
   filter (λ op, Path op = "/spec/containers/0/volumeMounts") ops =
     [ {| Op := "add"; Path := "/spec/containers/0/volumeMounts";
          Value := VMs [workingVolumeMount "fuse-csi-ephemeral-acct-data-ns"
                           "data" "acct"] |};
       {| Op := "add"; Path := "/spec/containers/0/volumeMounts";
          Value := VMs [workingVolumeMount "fuse-csi-ephemeral-acct-data-ns"
                           "data" "acct"] |} ] ∧
   filter (λ op, Path op = "/spec/containers/0/volumeMounts/-") ops = []).
Proof.
  split; [|split; [by do 2 eexists|]].
  - intros pod st H. cbn [isFirstVol initState]. by rewrite H.
  - cbv zeta. split; vm_compute; reflexivity.
Qed.

(** C3: the defect.  With [collidingSecrets] the call succeeds and records
    the names below: the third credential computes [acct-data], which is
    taken, and the suffix it receives makes it [acct-data-3], which is taken
    as well.  The suffix itself is as the claim says. *)
Lemma suffixed_name_can_collide :
  (∀ usedNames name,
     name ∈ usedNames →
     uniqueName usedNames name =
       name +:+ "-" +:+ Itoa (1 + length usedNames)) ∧
  (let r := createPatch exampleRand exampleMarshal examplePod 0
              exampleAnnotations collidingSecrets exampleState in
   (∃ bytes, fst r = Ok bytes) ∧
   filerBucketList (snd r) = ["acct-data"; "acct-data-3"; "acct-data-3"]) ∧
  uniqueName ["acct-data"; "acct-data-3"] "acct-data" = "acct-data-3" ∧
  uniqueName ["acct-data"; "acct-data-3"] "acct-data"
    ∈ ["acct-data"; "acct-data-3"].
Proof.
  split; [|split; [|split]].
  - intros usedNames name Hin. unfold uniqueName.
    rewrite bool_decide_eq_true_2 by done.
    by rewrite Nat.add_comm.
  - cbv zeta. split; [eexists|]; vm_compute; reflexivity.
  - vm_compute. reflexivity.
  - change (uniqueName ["acct-data"; "acct-data-3"] "acct-data")
      with "acct-data-3".
    apply list_elem_of_further, list_elem_of_here.
Qed.

(** C4: the defect.  For the mount paths [data/Project] and [data/] of filer
    [acct] the name passes the check of the grammar at the first attempt, so
    the fallback is not entered; the deepest directory is appended after
    the check, and the name that is recorded and given to the container
    does not match the grammar. *)
Lemma deepest_directory_is_not_checked :
  (onFallbackPath "acct" "data/Project" = false ∧
   (∀ r, candidateName r "acct" "data/Project" = "acct-data-Proje") ∧
   MatchString validNameRegex "acct-data-Proje" = false) ∧
  (onFallbackPath "acct" "data/" = false ∧
   (∀ r, candidateName r "acct" "data/" = "acct-data-") ∧
   MatchString validNameRegex "acct-data-" = false) ∧
  filerBucketList
    (snd (createPatch exampleRand exampleMarshal examplePod 0
            exampleAnnotations
            [filerSecret "acct-filer-conn-secret" "data/Project";
             filerSecret "acct-filer-conn-secret-b" "data/"]
            exampleState)) = ["acct-data-Proje"; "acct-data-"].
Proof.
  repeat split; try (intros r); vm_compute; reflexivity.
Qed.

(** ** Further scenarios of the specification *)

(** Two credentials with the same derived name: the second gets [-2]. *)
Example second_of_two_equal_names :
  filerBucketList
    (snd (createPatch exampleRand exampleMarshal examplePod 0
            exampleAnnotations
            [filerSecret "acct-filer-conn-secret-1" "data";
             filerSecret "acct-filer-conn-secret-2" "data"]
            exampleState)) = ["acct-data"; "acct-data-2"].
Proof. vm_compute. reflexivity. Qed.

(** A pod that the policy turns down is allowed as it is: [createPatch] is
    not called and the state is not touched. *)
Lemma mutate_not_required R marshal U sidecarConfig pod secretList st :
  mutationRequired U (Pod_ObjectMeta pod) = false →
  mutate R marshal U sidecarConfig pod secretList st =
    (Ok {| Allowed := true; Patch := None; PatchType := None |}, st).
Proof. unfold mutate. by intros ->. Qed.

(** A pod without labels is allowed as it is, and nothing is built. *)
Example pod_without_labels :
  mutate exampleRand exampleMarshal exampleLower 0
    {| Pod_ObjectMeta := {| Name := "p"; Namespace := "ns"; Labels := None;
                            Annotations := None |};
       Pod_Spec := {| Spec_Containers := []; Spec_Volumes := [] |} |}
    [filerSecret "acct-filer-conn-secret" "data"] exampleState =
  (Ok {| Allowed := true; Patch := None; PatchType := None |}, exampleState).
Proof. reflexivity. Qed.

(** The builders on an empty and on a non-empty target. *)
Example addVolume_empty_target v1 v2 :
  addVolume [] [v1; v2] "/spec/volumes" =
    [ {| Op := "add"; Path := "/spec/volumes"; Value := VVolumes [v1] |};
      {| Op := "add"; Path := "/spec/volumes/-"; Value := VVolume v2 |} ].
Proof. reflexivity. Qed.

Example addContainer_nonempty_target c0 c1 :
  addContainer [c0] [c1] "/spec/containers" =
    [ {| Op := "add"; Path := "/spec/containers/-";
         Value := VContainer c1 |} ].
Proof. reflexivity. Qed.

Example updateAnnotation_fresh :
  updateAnnotation None exampleAnnotations =
    [ {| Op := "add"; Path := "/metadata/annotations";
         Value := VStringMap
                     {[ admissionWebhookAnnotationStatusKey := "injected" ]} |} ].
Proof. reflexivity. Qed.

(** The bytes of the scenario of one credential, with the example encoder. *)
Example scenario_bytes :
  fst (createPatch exampleRand exampleMarshal examplePod 0 exampleAnnotations
         [filerSecret "acct-filer-conn-secret" "data/project"] exampleState) =
  Ok "[add /spec/containers/-,add /spec/volumes,add /spec/volumes/-,add /metadata/annotations,add /spec/containers/0/volumeMounts]".
Proof. vm_compute. reflexivity. Qed.

(** * Further properties of the code *)

(** ** Lengths and prefixes *)

Lemma length_append s t :
  String.length (s +:+ t) = String.length s + String.length t.
Proof. induction s as [|c s IH]; [done|]. rewrite append_cons. cbn. by rewrite IH. Qed.

Lemma substring_0_prefix n : ∀ s,
  ∃ rest, s = String.substring 0 n s +:+ rest ∧
          String.length (String.substring 0 n s) = Nat.min n (String.length s).
Proof.
  induction n as [|n IH]; intros s.
  - exists s. by destruct s.
  - destruct s as [|c s]; [by exists ""|].
    destruct (IH s) as (rest & E & L). exists rest.
    cbn [String.substring String.length Nat.min]. rewrite append_cons.
    by rewrite <- E, L.
Qed.

Lemma length_limitString_min str n :
  String.length (limitString str n) = Nat.min (String.length str) n.
Proof.
  unfold limitString. destruct (Nat.ltb_spec n (String.length str)).
  - destruct (substring_0_prefix n str) as (rest & _ & ->). lia.
  - lia.
Qed.

Lemma limitString_short str n :
  String.length str ≤ n → limitString str n = str.
Proof.
  intros H. unfold limitString.
  by destruct (Nat.ltb_spec n (String.length str)); [lia|].
Qed.

(** X1.  [limitString] returns a prefix of its argument, of length the
    smaller of the argument's length and the limit; it returns the argument
    itself when that is short enough, and cutting twice is cutting once. *)
Theorem limitString_prefix (str : string) (length : nat) :
  (∃ rest, str = limitString str length +:+ rest) ∧
  String.length (limitString str length)
    = Nat.min (String.length str) length ∧
  (String.length str ≤ length → limitString str length = str) ∧
  limitString (limitString str length) length = limitString str length.
Proof.
  split; [|split; [apply length_limitString_min|split]].
  - unfold limitString. destruct (length <? String.length str)%nat.
    + destruct (substring_0_prefix length str) as (rest & E & _). by exists rest.
    + exists "". by rewrite append_empty_r.
  - apply limitString_short.
  - apply limitString_short. rewrite length_limitString_min. lia.
Qed.

Lemma length_replaceFrom_dashes s : ∀ skip,
  String.length (replaceFrom "--" "-" skip s) ≤ String.length s.
Proof.
  induction s as [|c s IH]; intros skip; [done|].
  cbn [replaceFrom String.length]. destruct skip as [|k].
  - destruct (HasPrefix (String c s) "--").
    + change ("-" +:+ ?x) with (String "-" x). cbn [String.length].
      specialize (IH (2 - 1)). lia.
    + cbn [String.length]. specialize (IH 0). lia.
  - specialize (IH k). lia.
Qed.

Lemma length_TrimRight s cutset :
  String.length (TrimRight s cutset) ≤ String.length s.
Proof.
  induction s as [|c s IH]; [done|]. cbn [TrimRight].
  destruct (TrimRight s cutset) eqn:E.
  - destruct (byteIn c cutset); cbn; lia.
  - cbn [String.length] in *. lia.
Qed.

Lemma lastByte_TrimRight s c :
  lastByte (TrimRight s (String c "")) ≠ Some c.
Proof.
  induction s as [|a s IH]; [done|]. cbn [TrimRight].
  destruct (TrimRight s (String c "")) as [|b t] eqn:E.
  - unfold byteIn. cbn. destruct (Ascii.eqb_spec a c) as [->|Hne]; cbn.
    + done.
    + congruence.
  - exact IH.
Qed.

Lemma replaceFrom_absent old new s :
  Contains s old = false → replaceFrom old new 0 s = s.
Proof.
  induction s as [|c s IH]; [done|]. cbn [Contains replaceFrom].
  intros [H1 H2]%orb_false_iff. rewrite H1. by rewrite IH.
Qed.

Lemma ReplaceAll_absent s : Contains s "--" = false → ReplaceAll s "--" "-" = s.
Proof. apply replaceFrom_absent. Qed.

Lemma TrimRight_id s c :
  lastByte s ≠ Some c → TrimRight s (String c "") = s.
Proof.
  induction s as [|a s IH]; [done|]. cbn [TrimRight lastByte].
  destruct s as [|b s].
  - cbn. unfold byteIn. cbn. intros H.
    destruct (Ascii.eqb_spec a c) as [->|Hne]; [done|done].
  - intros H. rewrite (IH H). done.
Qed.

Lemma lastByte_cleanName name : lastByte (cleanName name) ≠ Some "-"%char.
Proof. unfold cleanName. apply lastByte_TrimRight. Qed.

Lemma length_cleanName name :
  String.length (cleanName name) ≤ String.length name.
Proof.
  unfold cleanName. etrans; [apply length_TrimRight|].
  apply length_replaceFrom_dashes.
Qed.

(** X2.  [cleanName] never returns a name that ends in a dash, never a
    longer name than it was given, and leaves alone a name that has no
    doubled dash and no dash at its end. *)
Theorem cleanName_no_trailing_dash (name : string) :
  lastByte (cleanName name) ≠ Some "-"%char ∧
  String.length (cleanName name) ≤ String.length name ∧
  (Contains name "--" = false → lastByte name ≠ Some "-"%char →
   cleanName name = name).
Proof.
  split; [apply lastByte_cleanName|]. split; [apply length_cleanName|].
  intros Hno Hlast. unfold cleanName.
  rewrite (ReplaceAll_absent name) by done. by apply TrimRight_id.
Qed.

(** ** Which names match the grammar *)

Lemma list_ascii_of_string_append s t :
  list_ascii_of_string (s +:+ t)
  = list_ascii_of_string s ++ list_ascii_of_string t.
Proof.
  induction s as [|c s IH]; [done|]. rewrite append_cons. cbn. by rewrite IH.
Qed.

Lemma allDashLowerAlnum_append s t :
  allDashLowerAlnum (s +:+ t) = allDashLowerAlnum s && allDashLowerAlnum t.
Proof.
  unfold allDashLowerAlnum. rewrite list_ascii_of_string_append.
  apply forallb_app.
Qed.

Lemma endsInAlnum_all s : endsInAlnum s = true → allDashLowerAlnum s = true.
Proof.
  induction s as [|c s IH]; [done|]. cbn [endsInAlnum].
  destruct s as [|c' s].
  - intros H. unfold allDashLowerAlnum. cbn.
    by rewrite (isLowerAlnum_dash _ H).
  - intros [Hc Hs]%andb_true_iff. unfold allDashLowerAlnum in *.
    change (list_ascii_of_string (String c (String c' s)))
      with (c :: list_ascii_of_string (String c' s)).
    cbn [forallb]. by rewrite Hc, IH.
Qed.

Lemma validNameb_all s : validNameb s = true → allDashLowerAlnum s = true.
Proof.
  destruct s as [|c s]; [done|]. cbn [validNameb].
  intros [Hc Hs]%andb_true_iff. unfold allDashLowerAlnum.
  change (list_ascii_of_string (String c s))
    with (c :: list_ascii_of_string s).
  cbn [forallb]. rewrite (isLowerAlnum_dash _ Hc). cbn [andb].
  destruct s; [done|]. by apply endsInAlnum_all.
Qed.

Lemma illegal_byte_not_allowed c :
  byteIn c "!@#$%^&*()" = true → isDashLowerAlnum c = false.
Proof.
  unfold byteIn. cbn [list_ascii_of_string existsb].
  rewrite !orb_true_iff, !Ascii.eqb_eq.
  intros H. repeat (destruct H as [->|H]; [reflexivity|]). done.
Qed.

Lemma ContainsAny_not_all s :
  ContainsAny s "!@#$%^&*()" = true → allDashLowerAlnum s = false.
Proof.
  unfold ContainsAny, allDashLowerAlnum.
  induction (list_ascii_of_string s) as [|c l IH]; [done|].
  cbn [existsb forallb]. intros [Hc|Hl]%orb_true_iff.
  - by rewrite (illegal_byte_not_allowed _ Hc).
  - rewrite (IH Hl). apply andb_false_r.
Qed.

(** A string with one of the bytes that [appendIntIfNeeded] looks for does
    not match the grammar, whatever is appended to it. *)
Lemma illegal_byte_never_valid s t :
  ContainsAny s "!@#$%^&*()" = true →
  MatchString validNameRegex (s +:+ t) = false.
Proof.
  intros H. rewrite MatchString_validName.
  destruct (validNameb (s +:+ t)) eqn:E; [|done].
  apply validNameb_all in E. rewrite allDashLowerAlnum_append in E.
  by rewrite (ContainsAny_not_all _ H) in E.
Qed.

Lemma endsInAlnum_before_dash d : ∀ s,
  endsInAlnum (s +:+ String "-" d) = true →
  s ≠ "" → lastByte s ≠ Some "-"%char → endsInAlnum s = true.
Proof.
  induction s as [|a s IH]; [done|]. intros H _ Hlast.
  rewrite append_cons in H. cbn [endsInAlnum] in H.
  destruct s as [|a' s].
  - change ("" +:+ String "-" d) with (String "-" d) in H.
    apply andb_true_iff in H as [Ha _]. cbn [endsInAlnum lastByte] in *.
    unfold isDashLowerAlnum in Ha. apply orb_true_iff in Ha as [Ha|Ha]; [|done].
    apply Ascii.eqb_eq in Ha. congruence.
  - rewrite append_cons in H. apply andb_true_iff in H as [Ha Hs].
    rewrite <- append_cons in Hs. cbn [endsInAlnum].
    rewrite Ha. cbn [andb]. apply IH; [done|done|exact Hlast].
Qed.

Lemma validNameb_before_dash s d :
  validNameb (s +:+ String "-" d) = true →
  lastByte s ≠ Some "-"%char → validNameb s = true.
Proof.
  destruct s as [|c s]; [done|]. rewrite append_cons. cbn [validNameb].
  intros [Hc Hs]%andb_true_iff Hlast. rewrite Hc. cbn [andb].
  destruct s as [|c' s]; [done|].
  rewrite append_cons in Hs. rewrite <- append_cons in Hs.
  apply (endsInAlnum_before_dash d); [done|done|exact Hlast].
Qed.

Lemma endsInAlnum_suffix t : ∀ s,
  endsInAlnum (s +:+ t) = true → t ≠ "" → endsInAlnum t = true.
Proof.
  induction s as [|a s IH]; [done|]. intros H Ht.
  rewrite append_cons in H. cbn [endsInAlnum] in H.
  destruct (s +:+ t) as [|b u] eqn:E.
  - destruct s; [by subst|discriminate].
  - apply andb_true_iff in H as [_ H]. by apply IH.
Qed.

Lemma validNameb_after_dash s d :
  validNameb (s +:+ String "-" d) = true → endsInAlnum d = true.
Proof.
  intros H.
  assert (endsInAlnum (String "-" d) = true) as Hd.
  { destruct s as [|c s]; [done|]. rewrite append_cons in H.
    cbn [validNameb] in H. apply andb_true_iff in H as [_ H].
    destruct (s +:+ String "-" d) as [|b u] eqn:E;
      [by destruct s|].
    rewrite <- E in H. by apply endsInAlnum_suffix in H. }
  cbn [endsInAlnum] in Hd. destruct d; [done|].
  by apply andb_true_iff in Hd as [_ ?].
Qed.

Section NameFacts.

Variable R : nat → nat → nat.

(** X3.  The fallback never repairs a name: given a name that does not match
    the grammar, [appendIntIfNeeded] returns a name that does not match it
    either, with or without the number; it draws a number only when the name
    has one of the bytes it looks for, and otherwise returns the name and
    the state as they are. *)
Theorem appendIntIfNeeded_never_valid (name : string) (st : LoopState) :
  MatchString validNameRegex name = false →
  ∃ name' st',
    appendIntIfNeeded R name st = (Ok name', st') ∧
    MatchString validNameRegex name' = false ∧
    (ContainsAny name "!@#$%^&*()" = false → name' = name ∧ st' = st) ∧
    (ContainsAny name "!@#$%^&*()" = true →
       name' = name +:+ Itoa (R (randCalls st) 100) ∧
       randCalls st' = S (randCalls st)).
Proof.
  intros Hbad. rewrite appendIntIfNeeded_eq.
  destruct (ContainsAny name "!@#$%^&*()") eqn:E.
  - do 2 eexists. split; [done|].
    split; [by apply illegal_byte_never_valid|]. by split.
  - do 2 eexists. split; [done|]. by repeat split.
Qed.

Lemma checkedName_fallback r filerName bucketMount :
  onFallbackPath filerName bucketMount = true →
  MatchString validNameRegex (checkedName r filerName bucketMount) = false ∧
  (lastByte (checkedName r filerName bucketMount) ≠ Some "-"%char ∨
   ContainsAny (checkedName r filerName bucketMount) "!@#$%^&*()" = true).
Proof.
  unfold onFallbackPath, checkedName. cbv zeta.
  intros [H0 H1]%andb_true_iff.
  apply negb_true_iff in H0, H1. rewrite H0, H1.
  destruct (ContainsAny (cleanName _) "!@#$%^&*()") eqn:E.
  - split; [by apply illegal_byte_never_valid|]. right.
    unfold ContainsAny in *. rewrite list_ascii_of_string_append, existsb_app.
    by rewrite E.
  - split; [done|]. left. apply lastByte_cleanName.
Qed.

Lemma candidateName_valid_cases (r : nat) (filerName bucketMount : string) :
  (MatchString validNameRegex (candidateName r filerName bucketMount) = true ↔
   onFallbackPath filerName bucketMount = false ∧
   (length (Split bucketMount "/") = 1 ∨
    endsInAlnum (deepestDirName bucketMount) = true)) ∧
  (∀ usedNames,
     MatchString validNameRegex (candidateName r filerName bucketMount) = true →
     MatchString validNameRegex
       (uniqueName usedNames (candidateName r filerName bucketMount)) = true).
Proof.
  split.
  - unfold candidateName, deepestDirName. cbv zeta.
    destruct (Split_cons bucketMount "/") as (x & l & E). rewrite E.
    set (d := limitString (default "" (last (x :: l))) 5).
    destruct l as [|y l].
    + cbn [length Nat.leb]. split.
      * intros H. split; [|by left].
        destruct (onFallbackPath filerName bucketMount) eqn:F; [|done].
        apply (checkedName_fallback r) in F as [F _]. congruence.
      * intros [F _]. by apply checkedName_valid.
    + cbn [length Nat.leb].
      change (?a +:+ "-" +:+ d) with (a +:+ String "-" d).
      rewrite MatchString_validName. split.
      * intros H. split.
        -- destruct (onFallbackPath filerName bucketMount) eqn:F; [|done].
           apply (checkedName_fallback r) in F as [F [Hl|Hi]].
           ++ apply validNameb_before_dash in H; [|done].
              rewrite MatchString_validName in F. congruence.
           ++ rewrite <- MatchString_validName in H.
              by rewrite illegal_byte_never_valid in H.
        -- right. by apply validNameb_after_dash in H.
      * intros [F [Hone|Hd]]; [done|].
        apply validNameb_app.
        -- rewrite <- MatchString_validName. by apply checkedName_valid.
        -- by apply endsInAlnum_cons.
  - intros usedNames H. unfold uniqueName.
    destruct (bool_decide _); [|done].
    rewrite MatchString_validName in *. by apply validNameb_suffix.
Qed.

(** X4.  Which mount paths give a name that matches the grammar.  The
    name block of [createPatch] returns the candidate name, with the ordinal
    appended when it is taken.  The candidate matches the grammar exactly
    when the check of lines 272 to 278 succeeded without the fallback and
    the mount path either has one segment or has a deepest directory that,
    cut to five bytes, is a non-empty string of dashes, lower-case letters
    and digits ending in a letter or digit.  A matching candidate still
    matches once the ordinal is appended. *)
Theorem makeNameToken_valid_iff (filerName bucketMount : string)
  (st : LoopState) :
  let candidate :=
    candidateName (R (randCalls st) 100) filerName bucketMount in
  (∃ st', makeNameToken R filerName bucketMount st
          = (Ok (uniqueName (filerBucketList st) candidate), st')) ∧
  (MatchString validNameRegex candidate = true ↔
   onFallbackPath filerName bucketMount = false ∧
   (length (Split bucketMount "/") = 1 ∨
    endsInAlnum (deepestDirName bucketMount) = true)) ∧
  (MatchString validNameRegex candidate = true →
   MatchString validNameRegex
     (uniqueName (filerBucketList st) candidate) = true).
Proof.
  cbv zeta. split; [eexists; apply makeNameToken_eq|].
  destruct (candidateName_valid_cases (R (randCalls st) 100) filerName
              bucketMount) as [H1 H2].
  split; [exact H1|apply H2].
Qed.

End NameFacts.

(** ** The length of a name *)

Lemma length_limitString str n : String.length (limitString str n) ≤ n.
Proof. rewrite length_limitString_min. lia. Qed.

Lemma length_baseName filerName bucketMount :
  String.length (baseName filerName bucketMount) ≤ 13.
Proof.
  unfold baseName. etrans; [apply length_TrimRight|].
  etrans; [apply length_replaceFrom_dashes|].
  rewrite !length_append.
  pose proof (length_limitString filerName 7).
  pose proof (length_limitString (hd "" (Split bucketMount "/")) 5).
  cbn [String.length]. lia.
Qed.

Lemma length_checkedName r filerName bucketMount :
  String.length (checkedName r filerName bucketMount)
  ≤ 13 + String.length (Itoa r).
Proof.
  unfold checkedName. cbv zeta.
  pose proof (length_baseName filerName bucketMount).
  pose proof (length_cleanName (baseName filerName bucketMount)).
  repeat case_match; rewrite ?length_append; lia.
Qed.

Lemma length_candidateName r filerName bucketMount :
  String.length (candidateName r filerName bucketMount)
  ≤ 19 + String.length (Itoa r).
Proof.
  unfold candidateName. cbv zeta.
  pose proof (length_checkedName r filerName bucketMount).
  case_match; [|lia]. rewrite !length_append.
  pose proof (length_limitString
                (default "" (last (Split bucketMount "/"))) 5).
  cbn [String.length]. lia.
Qed.

Lemma length_uniqueName usedNames name :
  String.length (uniqueName usedNames name)
  ≤ String.length name + 1 + String.length (Itoa (length usedNames + 1)).
Proof.
  unfold uniqueName. case_match; [|lia].
  rewrite !length_append. cbn [String.length]. lia.
Qed.

Lemma length_Itoa_small n : n < 1000 → String.length (Itoa n) ≤ 3.
Proof.
  intros H.
  assert (forallb (λ k, String.length (Itoa k) <=? 3)%nat (seq 0 1000) = true)
    as Hall by (vm_compute; reflexivity).
  rewrite forallb_forall in Hall.
  apply Nat.leb_le, Hall, in_seq. lia.
Qed.

Lemma length_Itoa_below_100 n : n < 100 → String.length (Itoa n) ≤ 2.
Proof.
  intros H.
  assert (forallb (λ k, String.length (Itoa k) <=? 2)%nat (seq 0 100) = true)
    as Hall by (vm_compute; reflexivity).
  rewrite forallb_forall in Hall.
  apply Nat.leb_le, Hall, in_seq. lia.
Qed.

Section NameLength.

Variable R : nat → nat → nat.

(** X5.  The naming code never panics, and the name it records is short:
    with a number below 100 from [rand.Intn(100)] and fewer than 999 names
    recorded so far it has at most 25 bytes, well inside the 63 that a
    container name may have. *)
Theorem makeNameToken_length (filerName bucketMount : string)
  (st : LoopState) :
  R (randCalls st) 100 < 100 →
  length (filerBucketList st) < 999 →
  ∃ name st',
    makeNameToken R filerName bucketMount st = (Ok name, st') ∧
    filerBucketList st' = filerBucketList st ++ [name] ∧
    String.length name ≤ 25.
Proof.
  intros Hr Hn. rewrite makeNameToken_eq. do 2 eexists.
  split; [done|]. split; [done|].
  etrans; [apply length_uniqueName|].
  pose proof (length_candidateName (R (randCalls st) 100) filerName
                bucketMount).
  pose proof (length_Itoa_below_100 _ Hr).
  pose proof (length_Itoa_small (length (filerBucketList st) + 1)).
  lia.
Qed.

End NameLength.

(** ** The name of the filer *)

Lemma rev_app_rev_app s : ∀ a b,
  String.rev_app (String.rev_app s a) b = String.rev_app a (s +:+ b).
Proof.
  induction s as [|c s IH]; intros a b; [done|].
  cbn [String.rev_app]. by rewrite IH.
Qed.

Lemma rev_rev s : String.rev (String.rev s) = s.
Proof.
  unfold String.rev. rewrite rev_app_rev_app. cbn. apply append_empty_r.
Qed.

Lemma byteIn_cons c a s : byteIn c (String a s) = Ascii.eqb c a || byteIn c s.
Proof. reflexivity. Qed.

Lemma HasPrefix_byteIn c prefix : ∀ s,
  HasPrefix s prefix = true → byteIn c prefix = true → byteIn c s = true.
Proof.
  induction prefix as [|a p IH]; intros s; [done|].
  destruct s as [|b s]; [done|]. cbn [HasPrefix].
  intros [Hb Hp]%andb_true_iff. apply Ascii.eqb_eq in Hb as ->.
  rewrite !byteIn_cons. intros [->|Hc]%orb_true_iff; [done|].
  rewrite (IH s Hp Hc). apply orb_true_r.
Qed.

Lemma Contains_byteIn c substr s :
  Contains s substr = true → byteIn c substr = true → byteIn c s = true.
Proof.
  intros H Hc. induction s as [|a s IH].
  - cbn [Contains] in H. rewrite orb_false_r in H.
    by apply (HasPrefix_byteIn c substr).
  - cbn [Contains] in H. apply orb_true_iff in H as [H|H].
    + by apply (HasPrefix_byteIn c substr).
    + rewrite byteIn_cons, (IH H). apply orb_true_r.
Qed.

Lemma HasPrefix_empty s : HasPrefix s "" = true.
Proof. by destruct s. Qed.

Lemma splitFrom_first_dash s : ∀ cur,
  byteIn "-" s = true →
  ∃ pre rest y l,
    s = pre +:+ String "-" rest ∧
    byteIn "-" pre = false ∧
    splitFrom "-" 0 cur s = String.rev (String.rev_app pre cur) :: y :: l.
Proof.
  induction s as [|c s IH]; intros cur; [done|].
  rewrite byteIn_cons. cbn [splitFrom HasPrefix].
  rewrite HasPrefix_empty, andb_true_r, (Ascii.eqb_sym c).
  destruct (Ascii.eqb_spec "-" c) as [<-|Hne].
  - intros _. destruct (splitFrom_cons "-" s (String.length "-" - 1) "")
      as (y & l & E).
    exists "", s, y, l. by rewrite E.
  - cbn [orb]. intros H.
    destruct (IH (String c cur) H) as (pre & rest & y & l & E & Hp & Hs).
    exists (String c pre), rest, y, l. rewrite append_cons, <- E.
    split; [done|]. rewrite byteIn_cons, Hp.
    rewrite (proj2 (Ascii.eqb_neq _ _)) by congruence.
    by rewrite Hs.
Qed.

(** X6.  For a secret that is taken as a filer secret, the name of the
    filer is the part of the secret's name before its first dash: it has no
    dash in it, and the value [error] set at line 234 is never what is
    used, since the name of such a secret always splits in at least two. *)
Theorem candidate_filerName (secret : Secret) :
  Contains (Secret_Name secret) "filer-conn-secret" = true →
  (1 <? length (Split (Secret_Name secret) "-"))%nat = true ∧
  byteIn "-" (filerNameOf secret) = false ∧
  ∃ rest, Secret_Name secret = filerNameOf secret +:+ "-" +:+ rest.
Proof.
  intros Hc.
  assert (byteIn "-" (Secret_Name secret) = true) as Hdash
    by (by apply (Contains_byteIn "-" "filer-conn-secret")).
  destruct (splitFrom_first_dash (Secret_Name secret) "" Hdash)
    as (pre & rest & y & l & E & Hp & Hs).
  change (String.rev_app pre "") with (String.rev pre) in Hs.
  rewrite rev_rev in Hs.
  unfold filerNameOf, Split. rewrite Hs. cbn [length hd].
  split; [done|]. split; [done|]. by exists rest.
Qed.

(** ** The patch builders *)

Lemma addContainerFrom_spec first added basePath :
  let ops := addContainerFrom first added basePath in
  length ops = length added ∧
  Forall (λ op, Op op = "add") ops ∧
  flat_map containersOf ops = added ∧
  map Path ops =
    match added with
    | [] => []
    | _ :: rest =>
        (if first then basePath else basePath +:+ "/-")
        :: replicate (length rest) (basePath +:+ "/-")
    end ∧
  map Value ops =
    match added with
    | [] => []
    | add :: rest =>
        (if first then VContainers [add] else VContainer add)
        :: map VContainer rest
    end.
Proof.
  cbv zeta. revert first.
  induction added as [|add rest IH]; intros first; [by repeat split|].
  destruct (IH false) as (Hl & Ha & Hc & Hp & Hv).
  cbn [addContainerFrom length flat_map map].
  split; [by rewrite Hl|]. split; [|split; [|split]].
  - constructor; [by destruct first|done].
  - rewrite Hc. by destruct first.
  - rewrite Hp. destruct first, rest; done.
  - rewrite Hv. destruct first, rest; done.
Qed.

Lemma addVolumeFrom_spec first added basePath :
  let ops := addVolumeFrom first added basePath in
  length ops = length added ∧
  Forall (λ op, Op op = "add") ops ∧
  flat_map volumesOf ops = added ∧
  map Path ops =
    match added with
    | [] => []
    | _ :: rest =>
        (if first then basePath else basePath +:+ "/-")
        :: replicate (length rest) (basePath +:+ "/-")
    end ∧
  map Value ops =
    match added with
    | [] => []
    | add :: rest =>
        (if first then VVolumes [add] else VVolume add)
        :: map VVolume rest
    end.
Proof.
  cbv zeta. revert first.
  induction added as [|add rest IH]; intros first; [by repeat split|].
  destruct (IH false) as (Hl & Ha & Hc & Hp & Hv).
  cbn [addVolumeFrom length flat_map map].
  split; [by rewrite Hl|]. split; [|split; [|split]].
  - constructor; [by destruct first|done].
  - rewrite Hc. by destruct first.
  - rewrite Hp. destruct first, rest; done.
  - rewrite Hv. destruct first, rest; done.
Qed.

(** X7.  [addContainer] and [addVolume] emit one [add] per new item, in the
    order of the items, each carrying its item.  Only the first operation
    can address the list itself, and does so exactly when the target list
    is empty: its value is then the one-element list of the item.  Every
    other operation addresses the append position [/-] and has the bare
    item as its value. *)
Theorem builders_emit_in_order (basePath : string) :
  (∀ target added,
     let ops := addContainer target added basePath in
     length ops = length added ∧
     Forall (λ op, Op op = "add") ops ∧
     flat_map containersOf ops = added ∧
     map Path ops =
       match added with
       | [] => []
       | _ :: rest =>
           (if bool_decide (target = []) then basePath
            else basePath +:+ "/-")
           :: replicate (length rest) (basePath +:+ "/-")
       end ∧
     map Value ops =
       match added with
       | [] => []
       | add :: rest =>
           (if bool_decide (target = []) then VContainers [add]
            else VContainer add)
           :: map VContainer rest
       end) ∧
  (∀ target added,
     let ops := addVolume target added basePath in
     length ops = length added ∧
     Forall (λ op, Op op = "add") ops ∧
     flat_map volumesOf ops = added ∧
     map Path ops =
       match added with
       | [] => []
       | _ :: rest =>
           (if bool_decide (target = []) then basePath
            else basePath +:+ "/-")
           :: replicate (length rest) (basePath +:+ "/-")
       end ∧
     map Value ops =
       match added with
       | [] => []
       | add :: rest =>
           (if bool_decide (target = []) then VVolumes [add]
            else VVolume add)
           :: map VVolume rest
       end).
Proof.
  split; intros target added; cbv zeta.
  - unfold addContainer.
    replace (bool_decide (target = [])) with (length target =? 0)%nat
      by (by destruct target).
    apply addContainerFrom_spec.
  - unfold addVolume.
    replace (bool_decide (target = [])) with (length target =? 0)%nat
      by (by destruct target).
    apply addVolumeFrom_spec.
Qed.

Lemma addContainerFrom_app first a b basePath :
  addContainerFrom first (a ++ b) basePath =
    addContainerFrom first a basePath ++
    addContainerFrom (first && bool_decide (a = [])) b basePath.
Proof.
  revert first. induction a as [|x a IH]; intros first.
  - cbn. by rewrite andb_true_r.
  - cbn [app addContainerFrom]. rewrite IH. cbn. by rewrite andb_false_r.
Qed.

Lemma addVolumeFrom_app first a b basePath :
  addVolumeFrom first (a ++ b) basePath =
    addVolumeFrom first a basePath ++
    addVolumeFrom (first && bool_decide (a = [])) b basePath.
Proof.
  revert first. induction a as [|x a IH]; intros first.
  - cbn. by rewrite andb_true_r.
  - cbn [app addVolumeFrom]. rewrite IH. cbn. by rewrite andb_false_r.
Qed.

(** X8.  Adding two batches one after the other, the second against the
    list as the first leaves it, gives the operations of adding them at
    once: the builders compose when the target they are given is kept up
    to date. *)
Theorem builders_compose (basePath : string) :
  (∀ target a b,
     addContainer target (a ++ b) basePath =
       addContainer target a basePath ++
       addContainer (target ++ a) b basePath) ∧
  (∀ target a b,
     addVolume target (a ++ b) basePath =
       addVolume target a basePath ++ addVolume (target ++ a) b basePath).
Proof.
  split; intros target a b.
  - unfold addContainer. rewrite addContainerFrom_app. do 2 f_equal.
    rewrite length_app. by destruct target, a.
  - unfold addVolume. rewrite addVolumeFrom_app. do 2 f_equal.
    rewrite length_app. by destruct target, a.
Qed.

Lemma updateAnnotation_empty added :
  updateAnnotation (Some ∅) added = map annotationAddOp added.
Proof.
  induction added as [|[key value] rest IH]; [done|].
  cbn [updateAnnotation map]. rewrite IH.
  by rewrite (orb_true_r (bool_decide _)).
Qed.

(** X9.  [updateAnnotation] emits one operation per entry, in order: a run
    of [replace] operations, for as long as the keys are present in the
    target with a non-empty value, and from the first key that is not so on
    only [add] operations of a one-key map at [/metadata/annotations],
    whether or not the later keys are present in the target.  With a nil
    target every operation is such an [add]. *)
Theorem updateAnnotation_shape (target : StringMap)
  (added : list (string * string)) :
  ∃ n,
    updateAnnotation target added =
      map annotationReplaceOp (take n added) ++
      map annotationAddOp (drop n added) ∧
    Forall (λ entry, target ≠ None ∧ index target entry.1 ≠ "")
      (take n added) ∧
    (∀ entry, drop n added !! 0 = Some entry →
       target = None ∨ index target entry.1 = "").
Proof.
  induction added as [|[key value] rest IH].
  { exists 0. by repeat split. }
  cbn [updateAnnotation].
  destruct (bool_decide (target = None) || String.eqb (index target key) "")
    eqn:E.
  - exists 0. cbn [take drop map app]. rewrite updateAnnotation_empty.
    split; [done|]. split; [constructor|].
    intros entry [= <-]. cbn [fst].
    apply orb_true_iff in E as [E|E].
    + left. by apply bool_decide_eq_true in E.
    + right. by apply String.eqb_eq.
  - destruct IH as (n & Hops & Hall & Hnext). exists (S n).
    cbn [take drop map app]. rewrite Hops. split; [done|].
    split; [|done]. constructor; [|done]. cbn [fst].
    apply orb_false_iff in E as [E1 E2].
    split; [by apply bool_decide_eq_false in E1|by apply String.eqb_neq].
Qed.

Lemma updateWorkingVolumeMounts_eq targetContainerSpec volumeName
  bucketMount filerName isFirst :
  updateWorkingVolumeMounts targetContainerSpec volumeName bucketMount
    filerName isFirst =
  replicate (nbPrefixCount targetContainerSpec)
    (workingMountOp volumeName bucketMount filerName isFirst).
Proof.
  unfold updateWorkingVolumeMounts, nbPrefixCount, workingMountOp. cbv zeta.
  induction targetContainerSpec as [|c cs IH]; [done|].
  cbn [flat_map]. rewrite IH, filter_app, length_app, replicate_add.
  f_equal. clear IH.
  induction (Container_Env c) as [|e es IHe]; [done|].
  cbn [flat_map]. rewrite IHe, filter_cons.
  destruct (String.eqb_spec (EnvVar_Name e) "NB_PREFIX") as [Heq|Hne].
  - rewrite decide_True by done. by destruct isFirst.
  - by rewrite decide_False.
Qed.

(** X10.  [updateWorkingVolumeMounts] emits the same operation once for
    every environment entry named [NB_PREFIX], in whichever container the
    entry is, and always for the container at index 0; it emits nothing
    exactly when no container has such an entry. *)
Theorem updateWorkingVolumeMounts_replicate
  (targetContainerSpec : list Container)
  (volumeName bucketMount filerName : string) (isFirst : bool) :
  updateWorkingVolumeMounts targetContainerSpec volumeName bucketMount
    filerName isFirst =
  replicate (nbPrefixCount targetContainerSpec)
    (workingMountOp volumeName bucketMount filerName isFirst) ∧
  (updateWorkingVolumeMounts targetContainerSpec volumeName bucketMount
     filerName isFirst = [] ↔
   Forall (λ c, Forall (λ e, EnvVar_Name e ≠ "NB_PREFIX") (Container_Env c))
     targetContainerSpec).
Proof.
  split; [apply updateWorkingVolumeMounts_eq|].
  rewrite updateWorkingVolumeMounts_eq. unfold nbPrefixCount.
  induction targetContainerSpec as [|c cs IH].
  { split; [constructor|done]. }
  cbn [flat_map]. rewrite filter_app, length_app, replicate_add.
  rewrite Forall_cons. split.
  - intros [H1 H2]%app_eq_nil. split; [|by apply IH].
    destruct (filter _ (Container_Env c)) as [|e l] eqn:E; [|done].
    apply Forall_forall. intros e He Hname.
    assert (e ∈ filter (λ e, EnvVar_Name e = "NB_PREFIX") (Container_Env c))
      as Hin by (by apply list_elem_of_filter).
    rewrite E in Hin. by apply elem_of_nil in Hin.
  - intros [Hc Hcs]. apply IH in Hcs. rewrite Hcs, app_nil_r.
    replace (filter _ (Container_Env c)) with (@nil EnvVar); [done|].
    symmetry. induction Hc as [|e l He Hl IHl]; [done|].
    rewrite filter_cons. by rewrite decide_False.
Qed.

(** ** The writes into the copy *)

Section LoopFacts.

Variable R : nat → nat → nat.
Variable marshal : patchOperation → string.

Lemma fillSidecarConfig_Ok q name ns b u a s st st' t :
  store st !! q = Some t →
  fillSidecarConfig q name ns b u a s st = (Ok tt, st') →
  ∃ cfg, specialize name ns b u a s t = Ok cfg ∧
         st' = with_store (<[q := cfg]> (store st)) st.
Proof.
  intros Hq Hrun.
  pose proof (fillSidecarConfig_runsAs q name ns b u a s st t Hq) as H.
  destruct (specialize name ns b u a s t) as [cfg|m].
  - exists cfg. split; [done|]. congruence.
  - destruct H as [H _]. by rewrite Hrun in H.
Qed.

(** X11.  What the writes of lines 291 to 307 leave alone.  When they
    succeed on the object at [sidecarConfig], only that object changes, and
    in it: the containers after the first, the names of the environment
    entries and every entry after the third, the volume mounts after the
    first, the volumes after the second, the source of the first volume, the
    driver of the second and every attribute of it other than
    [fdPassingEmptyDirName] are as they were. *)
Theorem fillSidecarConfig_frame (sidecarConfig : nat)
  (filerBucketName namespace bucketMount s3Url s3Access s3Secret : string)
  (st st' : LoopState) (t : Config) :
  store st !! sidecarConfig = Some t →
  fillSidecarConfig sidecarConfig filerBucketName namespace bucketMount
    s3Url s3Access s3Secret st = (Ok tt, st') →
  ∃ cfg c c' v0 v0' v1 v1' csi csi' attrs attrs',
    st' = with_store (<[sidecarConfig := cfg]> (store st)) st ∧
    Containers t !! 0 = Some c ∧ Containers cfg !! 0 = Some c' ∧
    drop 1 (Containers cfg) = drop 1 (Containers t) ∧
    map EnvVar_Name (Container_Env c') = map EnvVar_Name (Container_Env c) ∧
    drop 3 (Container_Env c') = drop 3 (Container_Env c) ∧
    drop 1 (Container_VolumeMounts c') = drop 1 (Container_VolumeMounts c) ∧
    Volumes t !! 0 = Some v0 ∧ Volumes cfg !! 0 = Some v0' ∧
    Volume_CSI v0' = Volume_CSI v0 ∧
    Volumes t !! 1 = Some v1 ∧ Volumes cfg !! 1 = Some v1' ∧
    drop 2 (Volumes cfg) = drop 2 (Volumes t) ∧
    Volume_CSI v1 = Some csi ∧ Volume_CSI v1' = Some csi' ∧
    CSI_Driver csi' = CSI_Driver csi ∧
    CSI_VolumeAttributes csi = Some attrs ∧
    CSI_VolumeAttributes csi' = Some attrs' ∧
    ∀ k, k ≠ "fdPassingEmptyDirName" → attrs' !! k = attrs !! k.
Proof.
  intros Hq Hrun.
  destruct (fillSidecarConfig_Ok _ _ _ _ _ _ _ _ _ _ Hq Hrun)
    as (cfg & Hs & ->).
  apply specialize_inv in Hs
    as (c&cs&e0&e1&e2&es&m&ms&v0&v1&vs&csi&attrs&->&He&Hm&Hcsi&Ha&->).
  do 11 eexists. split; [done|].
  split; [done|]. split; [done|]. split; [done|].
  cbn [Container_Env Container_VolumeMounts].
  split; [by rewrite He|]. split; [by rewrite He|]. split; [by rewrite Hm|].
  split; [done|]. split; [done|]. split; [done|].
  split; [done|]. split; [done|]. split; [done|].
  split; [done|]. split; [done|]. split; [done|].
  split; [done|]. split; [done|].
  intros k Hk. cbn. by rewrite lookup_insert_ne.
Qed.

(** ** Which calls succeed *)

Lemma isProcessed_false secret : isProcessed secret = false ↔ skipped secret.
Proof.
  unfold isProcessed, skipped.
  rewrite andb_false_iff, negb_false_iff. tauto.
Qed.

Lemma isProcessed_true secret :
  isProcessed secret = true ↔
  isCandidate secret = true ∧ missingField secret = false.
Proof. unfold isProcessed. by rewrite andb_true_iff, negb_true_iff. Qed.

Lemma specialize_copy_Ok name ns b u a s t cfg :
  specialize name ns b u a s (deepcopy_Config t) = Ok cfg →
  writableShape t ∧
  length (Containers cfg) = length (Containers t) ∧
  length (Volumes cfg) = length (Volumes t).
Proof.
  intros H. apply specialize_inv in H
    as (c&cs&e0&e1&e2&es&m&ms&v0&v1&vs&csi&attrs&Ht&He&Hm&Hcsi&Ha&->).
  destruct t as [tc tv]. unfold deepcopy_Config in Ht.
  cbn [Containers Volumes] in Ht. injection Ht as -> Hv.
  destruct tv as [|w0 [|w1 ws]]; try discriminate.
  cbn [fmap list_fmap] in Hv. injection Hv as <- <- <-.
  cbn [length Containers Volumes]. rewrite length_fmap.
  split; [|done].
  unfold deepcopy_Volume in Hcsi. cbn [Volume_CSI] in Hcsi.
  destruct (Volume_CSI w1) as [csi0|] eqn:E; [|discriminate].
  unfold writableShape. do 12 eexists. by repeat split.
Qed.

Lemma specialize_copy_writable name ns b u a s t :
  writableShape t →
  ∃ cfg, specialize name ns b u a s (deepcopy_Config t) = Ok cfg.
Proof.
  intros (c&cs&e0&e1&e2&es&m&ms&v0&v1&vs&csi&Hc&He&Hm&Hv&Hcsi).
  destruct t as [tc tv], c as [cn ca ce cm], v1 as [n1 vc], csi as [d va].
  cbn in Hc, He, Hm, Hv, Hcsi. subst. eexists. cbn. reflexivity.
Qed.

Lemma processSecret_keeps_template pod p ann secret st st' tmpl :
  store st !! p = Some tmpl →
  processSecret R pod p ann secret st = (Ok tt, st') →
  store st' !! p = Some tmpl.
Proof.
  intros Hp E.
  destruct (processSecret_keeps R pod p ann secret st) as [[_ Hk] _].
  rewrite E in Hk. cbn [snd] in Hk. rewrite Hk; [done|].
  by eapply lookup_lt_Some.
Qed.

Lemma forSecrets_Ok_cons pod p ann secret rest st st' :
  forSecrets (processSecret R pod p ann) (secret :: rest) st = (Ok tt, st') →
  ∃ st1, processSecret R pod p ann secret st = (Ok tt, st1) ∧
         forSecrets (processSecret R pod p ann) rest st1 = (Ok tt, st').
Proof.
  rewrite forSecrets_cons.
  destruct (processSecret R pod p ann secret st) as [[[]|m] st1]; [|done].
  intros H. by exists st1.
Qed.

Lemma forSecrets_Ok_shape pod p ann tmpl secrets : ∀ st st',
  store st !! p = Some tmpl →
  forSecrets (processSecret R pod p ann) secrets st = (Ok tt, st') →
  writableShape tmpl ∨ Forall skipped secrets.
Proof.
  induction secrets as [|s l IH]; intros st st' Hp Hrun; [by right|].
  apply forSecrets_Ok_cons in Hrun as (st1 & H1 & Hl).
  destruct (isProcessed s) eqn:E.
  - left. apply isProcessed_true in E as [Hc Hm].
    destruct (processSecret_valid_inv R pod p ann s st st1 Hc Hm H1)
      as (t & cfg & Ht & Hs & _).
    apply specialize_copy_Ok in Hs as [Hshape _]. congruence.
  - apply isProcessed_false in E.
    destruct (IH st1 st' (processSecret_keeps_template _ _ _ _ _ _ _ Hp H1) Hl)
      as [?|Hall]; [by left|right]. by constructor.
Qed.

Lemma processSecret_writable pod p ann secret st tmpl :
  store st !! p = Some tmpl → writableShape tmpl →
  ∃ st', processSecret R pod p ann secret st = (Ok tt, st').
Proof.
  intros Hp Hshape.
  destruct (isProcessed secret) eqn:E.
  - apply isProcessed_true in E as [Hc Hm].
    pose proof (processSecret_valid R pod p ann secret st tmpl Hc Hm Hp) as H.
    cbv zeta in H.
    destruct (specialize_copy_writable
                (uniqueName (filerBucketList st)
                   (candidateName (R (randCalls st) 100) (filerNameOf secret)
                      (index (Secret_Data secret) "S3_BUCKET")))
                (Namespace (Pod_ObjectMeta pod))
                (index (Secret_Data secret) "S3_BUCKET")
                (index (Secret_Data secret) "S3_URL")
                (index (Secret_Data secret) "S3_ACCESS")
                (index (Secret_Data secret) "S3_SECRET") tmpl Hshape)
      as [cfg Hcfg].
    rewrite Hcfg in H. eexists. exact H.
  - apply isProcessed_false in E.
    destruct (processSecret_skipped R pod p ann secret st E) as (st' & H & _).
    by exists st'.
Qed.

Lemma forSecrets_writable pod p ann tmpl secrets : ∀ st,
  store st !! p = Some tmpl → writableShape tmpl →
  ∃ st', forSecrets (processSecret R pod p ann) secrets st = (Ok tt, st').
Proof.
  induction secrets as [|s l IH]; intros st Hp Hshape; [by eexists|].
  rewrite forSecrets_cons.
  destruct (processSecret_writable pod p ann s st tmpl Hp Hshape)
    as (st1 & H1).
  rewrite H1. apply IH; [|done].
  by eapply processSecret_keeps_template.
Qed.

Lemma createPatch_nothing_valid_aux pod p ann secrets st :
  Forall skipped secrets →
  ∃ st', createPatch R marshal pod p ann secrets st = (Ok "null", st').
Proof.
  intros Hall. rewrite createPatch_eq.
  destruct (forSecrets_skipped R pod p ann secrets (initState pod st) Hall)
    as (st' & -> & (_&Hp&_)).
  exists st'. cbn [patch initState] in Hp. by rewrite Hp.
Qed.

(** X12.  [createPatch] returns bytes exactly when the template has what
    the writes of lines 291 to 307 index and dereference (a first container
    with three environment entries and a volume mount, two volumes, a CSI
    source in the second), or no credential of the listing is processed;
    otherwise it panics, at the first credential it processes.  A nil
    attribute map in the template does not make it panic, the copy having an
    empty map in its place. *)
Theorem createPatch_succeeds_iff (pod : Pod) (sidecarConfigTemplate : nat)
  (annotations : list (string * string)) (secretList : list Secret)
  (st : LoopState) (tmpl : Config) :
  store st !! sidecarConfigTemplate = Some tmpl →
  ((∃ bytes st',
      createPatch R marshal pod sidecarConfigTemplate annotations secretList st
      = (Ok bytes, st')) ↔
   writableShape tmpl ∨ Forall skipped secretList).
Proof.
  intros Hp. split.
  - intros (bytes & st' & Hrun). rewrite createPatch_eq in Hrun.
    destruct (forSecrets _ secretList _) as [[[]|m] st1] eqn:E; [|done].
    by eapply (forSecrets_Ok_shape pod sidecarConfigTemplate annotations tmpl
                 secretList (initState pod st)).
  - intros [Hshape|Hall].
    + rewrite createPatch_eq.
      destruct (forSecrets_writable pod sidecarConfigTemplate annotations
                  tmpl secretList (initState pod st) Hp Hshape) as (st' & ->).
      by do 2 eexists.
    + destruct (createPatch_nothing_valid_aux pod sidecarConfigTemplate
                  annotations secretList st Hall) as (st' & E).
      by do 2 eexists.
Qed.

(** ** How much a call adds *)

Lemma length_updateAnnotation added : ∀ target,
  length (updateAnnotation target added) = length added.
Proof.
  induction added as [|[key value] rest IH]; intros target; [done|].
  cbn [updateAnnotation]. case_match; cbn [length]; by rewrite IH.
Qed.

Lemma length_credentialOps pod ann cfg name b f flag :
  length (credentialOps pod ann cfg name b f flag) =
    length (Containers cfg) + length (Volumes cfg) + length ann
    + nbPrefixCount (Spec_Containers (Pod_Spec pod)).
Proof.
  unfold credentialOps, addContainer, addVolume. rewrite !length_app.
  destruct (addContainerFrom_spec
              (length (Spec_Containers (Pod_Spec pod)) =? 0)%nat
              (Containers cfg) "/spec/containers") as [-> _].
  destruct (addVolumeFrom_spec
              (length (Spec_Volumes (Pod_Spec pod)) =? 0)%nat
              (Volumes cfg) "/spec/volumes") as [-> _].
  rewrite length_updateAnnotation, updateWorkingVolumeMounts_eq,
    length_replicate.
  lia.
Qed.

Lemma forSecrets_counts pod p ann tmpl secrets : ∀ st st',
  store st !! p = Some tmpl →
  forSecrets (processSecret R pod p ann) secrets st = (Ok tt, st') →
  length (filerBucketList st')
    = length (filerBucketList st) + processedCount secrets ∧
  length (patch st')
    = length (patch st) + processedCount secrets * opsPerCredential pod ann tmpl.
Proof.
  induction secrets as [|s l IH]; intros st st' Hp Hrun.
  { injection Hrun as ->. cbn. lia. }
  apply forSecrets_Ok_cons in Hrun as (st1 & H1 & Hl).
  destruct (IH st1 st' (processSecret_keeps_template _ _ _ _ _ _ _ Hp H1) Hl)
    as [-> ->].
  cbn [processedCount]. destruct (isProcessed s) eqn:E.
  - apply isProcessed_true in E as [Hc Hm].
    destruct (processSecret_valid_inv R pod p ann s st st1 Hc Hm H1)
      as (t & cfg & Ht & Hs & ->).
    apply specialize_copy_Ok in Hs as (_ & Hlc & Hlv).
    assert (t = tmpl) as -> by congruence.
    cbn [filerBucketList patch]. rewrite !length_app, length_credentialOps.
    unfold opsPerCredential. rewrite Hlc, Hlv. cbn [length]. lia.
  - apply isProcessed_false in E.
    destruct (processSecret_skipped R pod p ann s st E)
      as (st1' & E1 & (_&Hpa&Hn&_)).
    rewrite H1 in E1. injection E1 as <-. rewrite Hpa, Hn. lia.
Qed.

(** X13.  A call that returns has recorded one name for each credential it
    processed and added, for each of them, one operation per container and
    per volume of the template, one per annotation, and one per environment
    entry named [NB_PREFIX] in the pod. *)
Theorem createPatch_counts (pod : Pod) (sidecarConfigTemplate : nat)
  (annotations : list (string * string)) (secretList : list Secret)
  (st st' : LoopState) (tmpl : Config) (bytes : string) :
  store st !! sidecarConfigTemplate = Some tmpl →
  createPatch R marshal pod sidecarConfigTemplate annotations secretList st
    = (Ok bytes, st') →
  length (filerBucketList st') = processedCount secretList ∧
  length (patch st')
    = processedCount secretList * opsPerCredential pod annotations tmpl.
Proof.
  intros Hp Hrun. rewrite createPatch_eq in Hrun.
  destruct (forSecrets _ secretList _) as [[[]|m] st1] eqn:E; [|done].
  injection Hrun as _ <-.
  by destruct (forSecrets_counts pod sidecarConfigTemplate annotations tmpl
                 secretList (initState pod st) st1 Hp E) as [-> ->].
Qed.

(** ** When the names are distinct *)

Lemma append_nonempty_ne s t : t ≠ "" → s +:+ t ≠ s.
Proof.
  intros Ht H.
  assert (s +:+ t = s +:+ "") as H' by (by rewrite append_empty_r).
  by apply (inj (String.append s)) in H'.
Qed.

Lemma NoDup_uniqueName usedNames name :
  length usedNames ≤ 1 → NoDup usedNames →
  NoDup (usedNames ++ [uniqueName usedNames name]).
Proof.
  intros Hlen Hnd. apply NoDup_app. split; [done|].
  split; [|apply NoDup_singleton].
  intros x Hx Hin. apply list_elem_of_singleton in Hin as ->.
  destruct usedNames as [|a [|b l]]; [by apply elem_of_nil in Hx| |cbn in Hlen; lia].
  apply list_elem_of_singleton in Hx. unfold uniqueName in Hx.
  destruct (bool_decide (name ∈ [a])) eqn:E.
  - apply bool_decide_eq_true, list_elem_of_singleton in E as ->.
    by apply append_nonempty_ne in Hx.
  - apply bool_decide_eq_false in E. apply E, list_elem_of_singleton.
    done.
Qed.

Lemma forSecrets_names_distinct pod p ann secrets : ∀ st st',
  forSecrets (processSecret R pod p ann) secrets st = (Ok tt, st') →
  NoDup (filerBucketList st) →
  length (filerBucketList st) + processedCount secrets ≤ 2 →
  NoDup (filerBucketList st').
Proof.
  induction secrets as [|s l IH]; intros st st' Hrun Hnd Hlen.
  { by injection Hrun as ->. }
  apply forSecrets_Ok_cons in Hrun as (st1 & H1 & Hl).
  cbn [processedCount] in Hlen. destruct (isProcessed s) eqn:E.
  - apply isProcessed_true in E as [Hc Hm].
    destruct (processSecret_valid_inv R pod p ann s st st1 Hc Hm H1)
      as (t & cfg & _ & _ & ->).
    apply (IH _ _ Hl); cbn [filerBucketList].
    + apply NoDup_uniqueName; [lia|done].
    + rewrite length_app. cbn [length]. lia.
  - apply isProcessed_false in E.
    destruct (processSecret_skipped R pod p ann s st E)
      as (st1' & E1 & (_&_&Hn&_)).
    rewrite H1 in E1. injection E1 as <-.
    apply (IH _ _ Hl); rewrite Hn; [done|lia].
Qed.

(** X14.  With at most two processed credentials the names recorded by a
    call are distinct, whatever the secrets are: a name that repeats the
    first gets the suffix [-2] and so differs from it. *)
Theorem two_credentials_distinct_names (pod : Pod) (sidecarConfigTemplate : nat)
  (annotations : list (string * string)) (secretList : list Secret)
  (st st' : LoopState) (bytes : string) :
  createPatch R marshal pod sidecarConfigTemplate annotations secretList st
    = (Ok bytes, st') →
  processedCount secretList ≤ 2 →
  NoDup (filerBucketList st').
Proof.
  intros Hrun Hk. rewrite createPatch_eq in Hrun.
  destruct (forSecrets _ secretList _) as [[[]|m] st1] eqn:E; [|done].
  injection Hrun as _ <-.
  apply (forSecrets_names_distinct pod sidecarConfigTemplate annotations
           secretList (initState pod st) st1 E); [constructor|done].
Qed.

(** ** The operations on the volume list and on the annotations *)

Lemma filter_path_none (X : string) (l : list patchOperation) :
  Forall (λ op, Path op ≠ X) l → filter (λ op, Path op = X) l = [].
Proof.
  induction 1 as [|op l Hop Hl IH]; [done|].
  rewrite filter_cons. by rewrite decide_False.
Qed.

Lemma addContainerFrom_paths first added basePath :
  Forall (λ op, Path op = basePath ∨ Path op = basePath +:+ "/-")
    (addContainerFrom first added basePath).
Proof.
  revert first. induction added as [|a l IH]; intros first; [constructor|].
  cbn [addContainerFrom]. constructor; [|apply IH].
  destruct first; [by left|by right].
Qed.

Lemma addVolumeFrom_false_paths added basePath :
  Forall (λ op, Path op = basePath +:+ "/-")
    (addVolumeFrom false added basePath).
Proof. induction added as [|a l IH]; by constructor. Qed.

Lemma annotation_path_ne key :
  "/metadata/annotations/" +:+ key ≠ "/spec/volumes".
Proof.
  intros H. apply (f_equal (String.substring 1 1)) in H.
  vm_compute in H. discriminate.
Qed.

Lemma updateAnnotation_paths added : ∀ target,
  Forall (λ op, Path op ≠ "/spec/volumes") (updateAnnotation target added).
Proof.
  induction added as [|[key value] rest IH]; intros target; [constructor|].
  cbn [updateAnnotation]. case_match; constructor; try apply IH.
  - done.
  - apply annotation_path_ne.
Qed.

Lemma credentialOps_volume_list pod ann cfg name b f flag v0 vs :
  Spec_Volumes (Pod_Spec pod) = [] → Volumes cfg = v0 :: vs →
  filter (λ op, Path op = "/spec/volumes")
    (credentialOps pod ann cfg name b f flag)
  = [ {| Op := "add"; Path := "/spec/volumes"; Value := VVolumes [v0] |} ].
Proof.
  intros Hnone Hv. unfold credentialOps, addContainer, addVolume.
  rewrite Hnone, Hv. cbn [length Nat.eqb addVolumeFrom].
  rewrite !filter_app, filter_cons, decide_True by done.
  rewrite (filter_path_none _ (addContainerFrom _ _ _)).
  2:{ eapply Forall_impl; [apply addContainerFrom_paths|].
      intros op [->| ->]; [done|]. vm_compute. discriminate. }
  rewrite (filter_path_none _ (addVolumeFrom false _ _)).
  2:{ eapply Forall_impl; [apply addVolumeFrom_false_paths|].
      intros op ->. vm_compute. discriminate. }
  rewrite (filter_path_none _ (updateAnnotation _ _))
    by apply updateAnnotation_paths.
  rewrite updateWorkingVolumeMounts_eq.
  rewrite (filter_path_none _ (replicate _ _)); [done|].
  apply Forall_replicate. by destruct flag.
Qed.

Lemma forSecrets_volume_list pod p ann secrets :
  Spec_Volumes (Pod_Spec pod) = [] → ∀ st st',
  forSecrets (processSecret R pod p ann) secrets st = (Ok tt, st') →
  ∃ firsts,
    length firsts = processedCount secrets ∧
    filter (λ op, Path op = "/spec/volumes") (patch st') =
      filter (λ op, Path op = "/spec/volumes") (patch st) ++
      map (λ v, {| Op := "add"; Path := "/spec/volumes";
                   Value := VVolumes [v] |}) firsts.
Proof.
  intros Hnone. induction secrets as [|s l IH]; intros st st' Hrun.
  { injection Hrun as ->. exists []. by rewrite app_nil_r. }
  apply forSecrets_Ok_cons in Hrun as (st1 & H1 & Hl).
  destruct (IH st1 st' Hl) as (firsts & Hlen & Hf).
  cbn [processedCount]. destruct (isProcessed s) eqn:E.
  - apply isProcessed_true in E as [Hc Hm].
    destruct (processSecret_valid_inv R pod p ann s st st1 Hc Hm H1)
      as (t & cfg & _ & Hs & ->).
    apply specialize_inv in Hs
      as (c&cs&e0&e1&e2&es&m&ms&v0&v1&vs&csi&attrs&_&_&_&_&_&->).
    eexists (_ :: firsts). split; [by rewrite <- Hlen|].
    rewrite Hf. cbn [patch]. rewrite filter_app.
    erewrite credentialOps_volume_list by done.
    by rewrite <- app_assoc.
  - apply isProcessed_false in E.
    destruct (processSecret_skipped R pod p ann s st E)
      as (st1' & E1 & (_&Hpa&_)).
    rewrite H1 in E1. injection E1 as <-.
    exists firsts. split; [done|]. by rewrite Hf, Hpa.
Qed.

(** X15.  For a pod without volumes, every credential that is processed
    emits one operation at [/spec/volumes] itself, whose value is a list of
    one volume: the target handed to [addVolume] is the pod's own list each
    time, so the list is set anew for each credential, not only for the
    first. *)
Theorem volume_list_set_per_credential (pod : Pod)
  (sidecarConfigTemplate : nat) (annotations : list (string * string))
  (secretList : list Secret) (st st' : LoopState) (bytes : string) :
  Spec_Volumes (Pod_Spec pod) = [] →
  createPatch R marshal pod sidecarConfigTemplate annotations secretList st
    = (Ok bytes, st') →
  ∃ firsts,
    length firsts = processedCount secretList ∧
    filter (λ op, Path op = "/spec/volumes") (patch st') =
      map (λ v, {| Op := "add"; Path := "/spec/volumes";
                   Value := VVolumes [v] |}) firsts.
Proof.
  intros Hnone Hrun. rewrite createPatch_eq in Hrun.
  destruct (forSecrets _ secretList _) as [[[]|m] st1] eqn:E; [|done].
  injection Hrun as _ <-.
  destruct (forSecrets_volume_list pod sidecarConfigTemplate annotations
              secretList Hnone (initState pod st) st1 E)
    as (firsts & Hlen & Hf).
  by exists firsts.
Qed.

Lemma forSecrets_patch_grows pod p ann secrets : ∀ st st',
  forSecrets (processSecret R pod p ann) secrets st = (Ok tt, st') →
  ∃ more, patch st' = patch st ++ more.
Proof.
  induction secrets as [|s l IH]; intros st st' Hrun.
  { injection Hrun as ->. exists []. by rewrite app_nil_r. }
  apply forSecrets_Ok_cons in Hrun as (st1 & H1 & Hl).
  destruct (IH st1 st' Hl) as (more & ->).
  destruct (isProcessed s) eqn:E.
  - apply isProcessed_true in E as [Hc Hm].
    destruct (processSecret_valid_inv R pod p ann s st st1 Hc Hm H1)
      as (t & cfg & _ & _ & ->).
    cbn [patch]. eexists. by rewrite <- app_assoc.
  - apply isProcessed_false in E.
    destruct (processSecret_skipped R pod p ann s st E)
      as (st1' & E1 & (_&Hpa&_)).
    rewrite H1 in E1. injection E1 as <-. rewrite Hpa. by exists more.
Qed.

Lemma forSecrets_annotation_ops pod p ann secrets : ∀ st st',
  forSecrets (processSecret R pod p ann) secrets st = (Ok tt, st') →
  1 ≤ processedCount secrets →
  ∀ op, op ∈ updateAnnotation (Annotations (Pod_ObjectMeta pod)) ann →
        op ∈ patch st'.
Proof.
  induction secrets as [|s l IH]; intros st st' Hrun Hk op Hop.
  { cbn in Hk. lia. }
  apply forSecrets_Ok_cons in Hrun as (st1 & H1 & Hl).
  destruct (isProcessed s) eqn:E.
  - apply isProcessed_true in E as [Hc Hm].
    destruct (processSecret_valid_inv R pod p ann s st st1 Hc Hm H1)
      as (t & cfg & _ & _ & ->).
    destruct (forSecrets_patch_grows pod p ann l _ _ Hl) as (more & ->).
    cbn [patch]. unfold credentialOps.
    rewrite !elem_of_app. left. right. right. right. by left.
  - cbn [processedCount] in Hk. rewrite E in Hk. by apply (IH st1 st' Hl).
Qed.

Variable U : string → string.

(** X16.  A pod that [mutate] passes to [createPatch] with at least one
    credential to process is allowed with a patch that marks it: among the
    operations there is the one that sets the status annotation to
    [injected], an [add] of the one-key map when the pod has no annotations
    or no value under that key, a [replace] of the key otherwise. *)
Theorem mutate_marks_pod (sidecarConfig : nat) (pod : Pod)
  (secretList : list Secret) (st st' : LoopState)
  (response : AdmissionResponse) :
  mutationRequired U (Pod_ObjectMeta pod) = true →
  1 ≤ processedCount secretList →
  mutate R marshal U sidecarConfig pod secretList st = (Ok response, st') →
  let marker := (admissionWebhookAnnotationStatusKey, "injected") in
  Allowed response = true ∧
  Patch response = Some (json_Marshal marshal (patch st')) ∧
  (if bool_decide (Annotations (Pod_ObjectMeta pod) = None)
      || String.eqb (index (Annotations (Pod_ObjectMeta pod))
                       admissionWebhookAnnotationStatusKey) ""
   then annotationAddOp marker else annotationReplaceOp marker)
  ∈ patch st'.
Proof.
  intros Hmut Hk Hrun. cbv zeta. unfold mutate in Hrun.
  rewrite Hmut in Hrun. cbn [negb] in Hrun.
  unfold mbind, Action_bind in Hrun. rewrite createPatch_eq in Hrun.
  destruct (forSecrets _ secretList _) as [[[]|m] st1] eqn:E; [|done].
  injection Hrun as <- <-. split; [done|]. split; [done|].
  apply (forSecrets_annotation_ops pod sidecarConfig _ secretList _ _ E Hk).
  cbn [updateAnnotation]. case_match; apply list_elem_of_here.
Qed.

End LoopFacts.

(** ** The grammar, byte by byte *)

Lemma endsInAlnum_iff s :
  endsInAlnum s = true ↔
  allDashLowerAlnum s = true ∧
  ∃ l, lastByte s = Some l ∧ isLowerAlnum l = true.
Proof.
  induction s as [|c s IH]; [split; [done|by intros [_ (l & ? & _)]]|].
  cbn [endsInAlnum lastByte]. unfold allDashLowerAlnum in *.
  change (list_ascii_of_string (String c s))
    with (c :: list_ascii_of_string s).
  cbn [forallb]. destruct s as [|c' s].
  - split.
    + intros H. split; [cbn; by rewrite (isLowerAlnum_dash _ H)|by exists c].
    + by intros [_ (l & [= <-] & H)].
  - rewrite !andb_true_iff, IH. tauto.
Qed.

(** X17.  The pattern of line 272 accepts exactly the strings in which
    every byte is a dash, a lower-case letter or a digit, and whose first
    and last bytes are a letter or a digit; in particular it rejects the
    empty string. *)
Theorem validNameRegex_accepts (s : string) :
  MatchString validNameRegex s = true ↔
  allDashLowerAlnum s = true ∧
  (∃ c rest, s = String c rest ∧ isLowerAlnum c = true) ∧
  (∃ l, lastByte s = Some l ∧ isLowerAlnum l = true).
Proof.
  rewrite MatchString_validName. destruct s as [|c s].
  { split; [done|by intros (_ & (c & rest & ? & _) & _)]. }
  cbn [validNameb lastByte]. unfold allDashLowerAlnum.
  change (list_ascii_of_string (String c s))
    with (c :: list_ascii_of_string s).
  cbn [forallb]. rewrite andb_true_iff. destruct s as [|c' s].
  - split.
    + intros [H _]. split; [cbn; by rewrite (isLowerAlnum_dash _ H)|].
      split; [by exists c, ""|by exists c].
    + by intros (_ & (c0 & rest & [= <- _] & H) & _).
  - rewrite endsInAlnum_iff. unfold allDashLowerAlnum. split.
    + intros (Hc & Hall & Hlast).
      split; [by rewrite (isLowerAlnum_dash _ Hc), Hall|].
      split; [by exists c, (String c' s)|done].
    + intros ([_ Hall]%andb_true_iff & (c0 & rest & [= <- _] & Hc) & Hlast).
      done.
Qed.

(** ** Where the random source is consulted *)

Lemma candidateName_indep r1 r2 filerName bucketMount :
  drawsRandom filerName bucketMount = false →
  candidateName r1 filerName bucketMount
  = candidateName r2 filerName bucketMount.
Proof.
  unfold drawsRandom, onFallbackPath, candidateName, checkedName. cbv zeta.
  intros H.
  destruct (MatchString validNameRegex (baseName _ _)); [done|].
  destruct (MatchString validNameRegex (cleanName _)); [done|].
  cbn [negb andb] in H. by rewrite H.
Qed.

Lemma makeNameToken_indep R1 R2 filerName bucketMount st :
  drawsRandom filerName bucketMount = false →
  makeNameToken R1 filerName bucketMount st
  = makeNameToken R2 filerName bucketMount st ∧
  randCalls (snd (makeNameToken R1 filerName bucketMount st)) = randCalls st.
Proof.
  intros H. rewrite !makeNameToken_eq. cbv zeta. rewrite H.
  by rewrite (candidateName_indep _ (R2 (randCalls st) 100) _ _ H).
Qed.

Lemma processSecret_indep R1 R2 pod p ann secret st :
  (isProcessed secret = true →
   drawsRandom (filerNameOf secret) (index (Secret_Data secret) "S3_BUCKET")
   = false) →
  processSecret R1 pod p ann secret st = processSecret R2 pod p ann secret st.
Proof.
  intros H. destruct (isProcessed secret) eqn:E.
  - specialize (H eq_refl). apply isProcessed_true in E as [Hc Hm].
    unfold processSecret. unfold isCandidate in Hc. rewrite Hc.
    unfold missingField in Hm.
    rewrite !(bind_eq _ _ _ _ _ (filerName_eq secret st)).
    assert (∀ st1, (makeNameToken R1 (filerNameOf secret)
                      (index (Secret_Data secret) "S3_BUCKET") st1)
                 = (makeNameToken R2 (filerNameOf secret)
                      (index (Secret_Data secret) "S3_BUCKET") st1)) as Hn
      by (intros st1; by apply makeNameToken_indep).
    destruct (store st !! p) as [t|] eqn:Hp.
    + rewrite !(bind_eq _ _ _ _ _ (deepcopy_Some _ _ _ Hp)).
      cbv zeta. rewrite Hm. unfold mbind at 1 13, Action_bind at 1 13.
      by rewrite Hn.
    + rewrite !(bind_eq _ _ _ _ _ (deepcopy_None _ _ Hp)).
      cbv zeta. rewrite Hm. unfold mbind at 1 13, Action_bind at 1 13.
      by rewrite Hn.
  - apply isProcessed_false in E as [Hc|Hm].
    + by rewrite !processSecret_skip.
    + destruct (isCandidate secret) eqn:Hc.
      * by rewrite !processSecret_invalid.
      * by rewrite !processSecret_skip.
Qed.

(** X18.  The random source is consulted only for a credential whose name,
    after the clean-up, still fails the grammar and has one of the bytes
    [!@#$%^&*()].  When no processed credential of the listing is such,
    [createPatch] returns the same bytes and leaves the same state whatever
    the source would have produced. *)
Theorem createPatch_random_free (R1 R2 : nat → nat → nat)
  (marshal : patchOperation → string) (pod : Pod)
  (sidecarConfigTemplate : nat) (annotations : list (string * string))
  (secretList : list Secret) (st : LoopState) :
  Forall (λ secret,
            isProcessed secret = true →
            drawsRandom (filerNameOf secret)
              (index (Secret_Data secret) "S3_BUCKET") = false) secretList →
  createPatch R1 marshal pod sidecarConfigTemplate annotations secretList st
  = createPatch R2 marshal pod sidecarConfigTemplate annotations secretList st.
Proof.
  intros Hall. rewrite !createPatch_eq.
  assert (∀ st0,
            forSecrets (processSecret R1 pod sidecarConfigTemplate annotations)
              secretList st0
            = forSecrets (processSecret R2 pod sidecarConfigTemplate annotations)
                secretList st0) as ->; [|done].
  induction Hall as [|s l Hs Hl IH]; intros st0; [done|].
  rewrite !forSecrets_cons, (processSecret_indep R1 R2 _ _ _ _ _ Hs).
  destruct (processSecret R2 _ _ _ s st0) as [[[]|m] st1]; [apply IH|done].
Qed.
(** ** The properties above on concrete inputs *)

Lemma appendIntIfNeeded_never_valid_witness :
  ∃ name' st',
    appendIntIfNeeded exampleRand "acct!" exampleState = (Ok name', st') ∧
    MatchString validNameRegex name' = false ∧
    (ContainsAny "acct!" "!@#$%^&*()" = false →
     name' = "acct!" ∧ st' = exampleState) ∧
    (ContainsAny "acct!" "!@#$%^&*()" = true →
     name' = "acct!" +:+ Itoa (exampleRand (randCalls exampleState) 100) ∧
     randCalls st' = S (randCalls exampleState)).
Proof.
  assert (MatchString validNameRegex "acct!" = false) as H
    by (vm_compute; reflexivity).
  exact (appendIntIfNeeded_never_valid exampleRand "acct!" exampleState H).
Defined.

Lemma makeNameToken_length_witness :
  ∃ name st',
    makeNameToken exampleRand "acct" "data/project" exampleState
    = (Ok name, st') ∧
    filerBucketList st' = filerBucketList exampleState ++ [name] ∧
    String.length name ≤ 25.
Proof.
  assert (exampleRand (randCalls exampleState) 100 < 100) as Hr
    by (change (7 < 100); lia).
  assert (length (filerBucketList exampleState) < 999) as Hn
    by (change (0 < 999); lia).
  exact (makeNameToken_length exampleRand "acct" "data/project" exampleState
           Hr Hn).
Defined.

Lemma candidate_filerName_witness :
  (1 <? length (Split "acct-filer-conn-secret" "-"))%nat = true ∧
  byteIn "-" (filerNameOf (filerSecret "acct-filer-conn-secret" "data"))
  = false ∧
  ∃ rest, "acct-filer-conn-secret"
          = filerNameOf (filerSecret "acct-filer-conn-secret" "data")
            +:+ "-" +:+ rest.
Proof.
  assert (Contains (Secret_Name (filerSecret "acct-filer-conn-secret" "data"))
            "filer-conn-secret" = true) as Hc by (vm_compute; reflexivity).
  exact (candidate_filerName (filerSecret "acct-filer-conn-secret" "data") Hc).
Defined.

Lemma fillSidecarConfig_frame_witness :
  ∃ cfg,
    snd (fillSidecarConfig 0 "acct-data" "ns" "data" "https://s3.example"
           "AK" "SK" exampleState)
    = with_store (<[0 := cfg]> (store exampleState)) exampleState ∧
    drop 1 (Containers cfg) = drop 1 (Containers exampleTemplate) ∧
    drop 2 (Volumes cfg) = drop 2 (Volumes exampleTemplate).
Proof.
  set (r := fillSidecarConfig 0 "acct-data" "ns" "data" "https://s3.example"
              "AK" "SK" exampleState).
  assert (r = (Ok tt, snd r)) as Hrun by (vm_compute; reflexivity).
  assert (store exampleState !! 0 = Some exampleTemplate)
    as Hp by reflexivity.
  destruct (fillSidecarConfig_frame 0 "acct-data" "ns" "data"
              "https://s3.example" "AK" "SK" exampleState (snd r)
              exampleTemplate Hp Hrun)
    as (cfg & c & c' & v0 & v0' & v1 & v1' & csi & csi' & attrs & attrs' &
        Hst & _ & _ & Hcs & _ & _ & _ & _ & _ & _ & _ & _ & Hvs & _).
  exists cfg. split; [exact Hst|]. split; [exact Hcs|exact Hvs].
Defined.

Lemma createPatch_succeeds_iff_witness :
  ∃ bytes st',
    createPatch exampleRand exampleMarshal examplePod 0 exampleAnnotations
      [filerSecret "acct-filer-conn-secret" "data/project"; otherSecret]
      (with_store [nilAttributesTemplate] exampleState) = (Ok bytes, st').
Proof.
  assert (store (with_store [nilAttributesTemplate] exampleState) !! 0
          = Some nilAttributesTemplate) as Hp by reflexivity.
  assert (writableShape nilAttributesTemplate) as Hshape.
  { unfold writableShape, nilAttributesTemplate, exampleTemplate.
    do 12 eexists. repeat split; reflexivity. }
  destruct (createPatch_succeeds_iff exampleRand exampleMarshal examplePod 0
              exampleAnnotations
              [filerSecret "acct-filer-conn-secret" "data/project";
               otherSecret]
              (with_store [nilAttributesTemplate] exampleState)
              nilAttributesTemplate Hp) as [_ Hback].
  exact (Hback (or_introl Hshape)).
Defined.

Lemma createPatch_counts_witness :
  let secretList :=
    [filerSecret "acct-filer-conn-secret" "data/project"; otherSecret;
     incompleteSecret; filerSecret "team-filer-conn-secret" "data"] in
  let st' := snd (createPatch exampleRand exampleMarshal examplePod 0
                    exampleAnnotations secretList exampleState) in
  length (filerBucketList st') = processedCount secretList ∧
  length (patch st')
  = processedCount secretList
    * opsPerCredential examplePod exampleAnnotations exampleTemplate.
Proof.
  cbv zeta.
  set (secretList :=
    [filerSecret "acct-filer-conn-secret" "data/project"; otherSecret;
     incompleteSecret; filerSecret "team-filer-conn-secret" "data"]).
  set (r := createPatch exampleRand exampleMarshal examplePod 0
              exampleAnnotations secretList exampleState).
  assert (r = (Ok (match fst r with Ok b => b | Panic _ => "" end), snd r))
    as Hrun by (vm_compute; reflexivity).
  assert (store exampleState !! 0 = Some exampleTemplate)
    as Hp by reflexivity.
  exact (createPatch_counts exampleRand exampleMarshal examplePod 0
           exampleAnnotations secretList exampleState (snd r) exampleTemplate
           (match fst r with Ok b => b | Panic _ => "" end) Hp Hrun).
Defined.

Lemma two_credentials_distinct_names_witness :
  NoDup (filerBucketList
           (snd (createPatch exampleRand exampleMarshal examplePod 0
                   exampleAnnotations
                   [filerSecret "acct-filer-conn-secret-1" "data";
                    filerSecret "acct-filer-conn-secret-2" "data"]
                   exampleState))).
Proof.
  set (secretList := [filerSecret "acct-filer-conn-secret-1" "data";
                      filerSecret "acct-filer-conn-secret-2" "data"]).
  set (r := createPatch exampleRand exampleMarshal examplePod 0
              exampleAnnotations secretList exampleState).
  assert (r = (Ok (match fst r with Ok b => b | Panic _ => "" end), snd r))
    as Hrun by (vm_compute; reflexivity).
  assert (processedCount secretList ≤ 2) as Hk by (change (2 ≤ 2); lia).
  exact (two_credentials_distinct_names exampleRand exampleMarshal examplePod
           0 exampleAnnotations secretList exampleState (snd r)
           (match fst r with Ok b => b | Panic _ => "" end) Hrun Hk).
Defined.

Lemma volume_list_set_per_credential_witness :
  let secretList := [filerSecret "acct-filer-conn-secret-1" "data";
                     filerSecret "acct-filer-conn-secret-2" "data"] in
  ∃ firsts,
    length firsts = processedCount secretList ∧
    filter (λ op, Path op = "/spec/volumes")
      (patch (snd (createPatch exampleRand exampleMarshal examplePod 0
                     exampleAnnotations secretList exampleState)))
    = map (λ v, {| Op := "add"; Path := "/spec/volumes";
                   Value := VVolumes [v] |}) firsts.
Proof.
  cbv zeta.
  set (secretList := [filerSecret "acct-filer-conn-secret-1" "data";
                      filerSecret "acct-filer-conn-secret-2" "data"]).
  set (r := createPatch exampleRand exampleMarshal examplePod 0
              exampleAnnotations secretList exampleState).
  assert (r = (Ok (match fst r with Ok b => b | Panic _ => "" end), snd r))
    as Hrun by (vm_compute; reflexivity).
  assert (Spec_Volumes (Pod_Spec examplePod) = []) as Hnone by reflexivity.
  exact (volume_list_set_per_credential exampleRand exampleMarshal examplePod
           0 exampleAnnotations secretList exampleState (snd r)
           (match fst r with Ok b => b | Panic _ => "" end) Hnone Hrun).
Defined.

Lemma mutate_marks_pod_witness :
  annotationAddOp (admissionWebhookAnnotationStatusKey, "injected")
  ∈ patch (snd (mutate exampleRand exampleMarshal exampleLower 0 examplePod
                  [filerSecret "acct-filer-conn-secret" "data/project"]
                  exampleState)).
Proof.
  set (secretList := [filerSecret "acct-filer-conn-secret" "data/project"]).
  set (r := mutate exampleRand exampleMarshal exampleLower 0 examplePod
              secretList exampleState).
  set (response := match fst r with
                   | Ok response => response
                   | Panic _ => {| Allowed := false; Patch := None;
                                   PatchType := None |}
                   end).
  assert (r = (Ok response, snd r)) as Hrun by (vm_compute; reflexivity).
  assert (mutationRequired exampleLower (Pod_ObjectMeta examplePod) = true)
    as Hmut by (vm_compute; reflexivity).
  assert (1 ≤ processedCount secretList) as Hk by (change (1 ≤ 1); lia).
  destruct (mutate_marks_pod exampleRand exampleMarshal exampleLower 0
              examplePod secretList exampleState (snd r) response Hmut Hk
              Hrun)
    as (_ & _ & Hin).
  exact Hin.
Defined.

Lemma createPatch_random_free_witness :
  createPatch exampleRand exampleMarshal examplePod 0 exampleAnnotations
    [filerSecret "acct-filer-conn-secret" "data/project"; incompleteSecret]
    exampleState
  = createPatch (λ _ _, 0) exampleMarshal examplePod 0 exampleAnnotations
      [filerSecret "acct-filer-conn-secret" "data/project"; incompleteSecret]
      exampleState.
Proof.
  apply createPatch_random_free.
  constructor; [intros _; vm_compute; reflexivity|].
  constructor; [intros _; vm_compute; reflexivity|]. constructor.
Defined.
